(** * Additive/deletion filter for infeasible LP/MIP models

    A shallow embedding of [get_iis_additive_deletion_method] (iis.py) and
    of the slice of the Python-MIP object model it drives: models carrying
    variables, a live constraint list, solver settings and a status; the
    solver itself is an external collaborator and enters as a function from
    the formulation a model holds to a status. *)

From Stdlib Require Import ZArith String List Bool Arith Lia.
Import ListNotations.
Local Open Scope list_scope.

Set Implicit Arguments.

(** ** Enumerations of the modelling library *)

(** Modelled from the spec: the status enumeration of the solver adapter,
    [Status ∈ {NotSolved, Optimal, Feasible, Infeasible, IntegerInfeasible,
    Other}], under the names the source uses for the five it inspects;
    [OTHER] stands for every further status of the library. *)
Inductive OptimizationStatus : Type :=
| LOADED
| OPTIMAL
| FEASIBLE
| INFEASIBLE
| INT_INFEASIBLE
| OTHER.

(** Modelled from the spec: variable kind, continuous | integer | binary. *)
Inductive VarType : Type := BINARY | CONTINUOUS | INTEGER.

(** Modelled from the spec: the search emphasis setting; the source only
    ever writes [FEASIBILITY]. *)
Inductive SearchEmphasis : Type := DEFAULT | FEASIBILITY | OPTIMALITY.

(** [status == FEASIBLE or status == OPTIMAL] (lines 67-68 and 112-113). *)
Definition is_feasible (s : OptimizationStatus) : bool :=
  match s with
  | FEASIBLE | OPTIMAL => true
  | _ => false
  end.

(** [status == INFEASIBLE or status == INT_INFEASIBLE] (lines 98-99). *)
Definition is_infeasible (s : OptimizationStatus) : bool :=
  match s with
  | INFEASIBLE | INT_INFEASIBLE => true
  | _ => false
  end.

(** [status == LOADED] (line 64). *)
Definition is_loaded (s : OptimizationStatus) : bool :=
  match s with
  | LOADED => true
  | _ => false
  end.

(** ** Models *)

Section Models.

(** Bounds, linear expressions and special ordered sets are opaque to the
    filter: it copies the first, moves the second around as whole units and
    never sees the third. *)
Context {Num LinExpr Sos : Type}.

Record Var : Type := mkVar {
  name : string;
  lb : Num;
  ub : Num;
  var_type : VarType
}.

(** A constraint handle.  [uid] is the identity of the Python object: the
    row index a handle carries is its current position in the list that
    holds it, and it is by identity that [remove] finds the row. *)
Record Constr : Type := mkConstr {
  uid : nat;
  expr : LinExpr
}.

Inductive Objective : Type :=
| ObjConst (c : Z)
| ObjExpr (e : LinExpr).

(** Every write to a model, in program order (a ghost history: the solver
    never reads it). *)
Inductive Event : Type :=
| EvClear
| EvSetVerbose (v : Z)
| EvSetEmphasis (e : SearchEmphasis)
| EvSetPreprocess (p : Z)
| EvSetObjective (o : Objective)
| EvAddVar (v : Var)
| EvAddConstr (e : LinExpr)
| EvRemoveConstr (e : LinExpr)
| EvOptimize.

Record Model : Type := mkModel {
  vars : list Var;
  constrs : list Constr;
  sos : list Sos;
  objective : Objective;
  status : OptimizationStatus;
  emphasis : SearchEmphasis;
  preprocess : Z;
  verbose : Z;
  next_uid : nat;
  history : list Event
}.

(** What a solve call hands to the solver: the formulation and the
    settings that steer the search, not the status, the verbosity, the
    handles or the history. *)
Record Problem : Type := mkProblem {
  p_vars : list Var;
  p_exprs : list LinExpr;
  p_sos : list Sos;
  p_objective : Objective;
  p_emphasis : SearchEmphasis;
  p_preprocess : Z
}.

Definition exprs (m : Model) : list LinExpr := map expr (constrs m).

(** The problem [m] would pose if its rows were the expressions [es]. *)
Definition with_exprs (m : Model) (es : list LinExpr) : Problem :=
  mkProblem (vars m) es (sos m) (objective m) (emphasis m) (preprocess m).

Definition problem_of (m : Model) : Problem := with_exprs m (exprs m).

(** The external solver. *)
Variable solver : Problem -> OptimizationStatus.

(** *** The methods of [mip.Model] and [mip.ConstrList] the source calls *)

(** [m.optimize()]: one blocking solve; the status is the only field of
    the formulation it writes. *)
Definition optimize (m : Model) : Model :=
  mkModel (vars m) (constrs m) (sos m) (objective m)
          (solver (problem_of m))
          (emphasis m) (preprocess m) (verbose m) (next_uid m)
          (history m ++ [EvOptimize]).

(** Modelled from the spec: [createModel] — construct an empty
    optimization model ([mip.Model()]).  Its settings are the library's
    defaults; solver output is on until silenced, which is why the source
    and its tests write [verbose = 0] right after constructing one. *)
Definition new_model : Model :=
  mkModel [] [] [] (ObjConst 0) LOADED DEFAULT (-1) 1 0 [].

(** Modelled from the spec: [clearModel(model)] — remove all variables
    and constraints, restoring it to a fresh state, for reuse. *)
Definition clear (m : Model) : Model :=
  mkModel [] [] [] (ObjConst 0) LOADED DEFAULT (-1) 1 0
          (history m ++ [EvClear]).

(** [m.verbose = v] *)
Definition set_verbose (m : Model) (v : Z) : Model :=
  mkModel (vars m) (constrs m) (sos m) (objective m) (status m)
          (emphasis m) (preprocess m) v (next_uid m)
          (history m ++ [EvSetVerbose v]).

(** [m.emphasis = e] *)
Definition set_emphasis (m : Model) (e : SearchEmphasis) : Model :=
  mkModel (vars m) (constrs m) (sos m) (objective m) (status m)
          e (preprocess m) (verbose m) (next_uid m)
          (history m ++ [EvSetEmphasis e]).

(** [m.preprocess = p] *)
Definition set_preprocess (m : Model) (p : Z) : Model :=
  mkModel (vars m) (constrs m) (sos m) (objective m) (status m)
          (emphasis m) p (verbose m) (next_uid m)
          (history m ++ [EvSetPreprocess p]).

(** [m.objective = o] *)
Definition set_objective (m : Model) (o : Objective) : Model :=
  mkModel (vars m) (constrs m) (sos m) o (status m)
          (emphasis m) (preprocess m) (verbose m) (next_uid m)
          (history m ++ [EvSetObjective o]).

(** [m.add_var(name=, lb=, ub=, var_type=)] *)
Definition add_var (m : Model) (n : string) (l u : Num) (t : VarType)
  : Model :=
  mkModel (vars m ++ [mkVar n l u t]) (constrs m) (sos m) (objective m)
          (status m) (emphasis m) (preprocess m) (verbose m) (next_uid m)
          (history m ++ [EvAddVar (mkVar n l u t)]).

(** [m.constrs.add(e)] and [m.add_constr(e)]: a new row at the end of the
    list, behind a new handle. *)
Definition add_constr (m : Model) (e : LinExpr) : Model :=
  mkModel (vars m) (constrs m ++ [mkConstr (next_uid m) e]) (sos m)
          (objective m) (status m) (emphasis m) (preprocess m) (verbose m)
          (S (next_uid m))
          (history m ++ [EvAddConstr e]).

Definition same_handle (c d : Constr) : bool := Nat.eqb (uid c) (uid d).

(** [m.constrs.remove(cs)]: the rows behind the handles [cs] leave the
    list; the rows that stay keep their order (and are re-indexed, which
    here is their new position). *)
Definition remove (m : Model) (cs : list Constr) : Model :=
  mkModel (vars m)
          (filter (fun d => negb (existsb (same_handle d) cs)) (constrs m))
          (sos m) (objective m) (status m) (emphasis m) (preprocess m)
          (verbose m) (next_uid m)
          (history m ++ map (fun c => EvRemoveConstr (expr c)) cs).

(** ** The filter *)

(** Lines 64-65: solve the original model if it was never solved. *)
Definition ensure_solved (mip_model : Model) : Model :=
  if is_loaded (status mip_model) then optimize mip_model else mip_model.

(** Lines 84-88: one [add_var] per original variable. *)
Fixpoint copy_vars (vs : list Var) (aux : Model) : Model :=
  match vs with
  | [] => aux
  | var :: rest =>
      copy_vars rest
        (add_var aux (name var) (lb var) (ub var) (var_type var))
  end.

(** Lines 72-88: the auxiliary model, borrowed and cleared or created and
    silenced, then configured and given the mirrored variables. *)
Definition build_aux (mip_model : Model) (premade_aux_mip_model : option Model)
  : Model :=
  let aux_mip_model :=
    match premade_aux_mip_model with
    | Some premade => clear premade
    | None => set_verbose new_model 0
    end in
  let aux_mip_model := set_emphasis aux_mip_model FEASIBILITY in
  let aux_mip_model := set_preprocess aux_mip_model 1 in
  let aux_mip_model := set_objective aux_mip_model (ObjConst 0) in
  copy_vars (vars mip_model) aux_mip_model.

(** Lines 92-102: the additive loop.  [i] counts the additions that did
    not end the loop, so on a [break] it is the position of the row just
    added. *)
Fixpoint additive (cs : list Constr) (aux : Model) (i : nat) : Model * nat :=
  match cs with
  | [] => (aux, i)
  | constr :: rest =>
      let aux := optimize (add_constr aux (expr constr)) in
      if is_infeasible (status aux) then (aux, i)
      else additive rest aux (S i)
  end.

(** Lines 106-115: the deletion loop over the copied slice [temp]. *)
Fixpoint deletion (temp : list Constr) (aux : Model) : Model :=
  match temp with
  | [] => aux
  | constr :: rest =>
      let e := expr constr in
      let aux := optimize (remove aux [constr]) in
      let aux := if is_feasible (status aux) then add_constr aux e else aux in
      deletion rest aux
  end.

(** What a call leaves behind: the original model, the auxiliary model
    (the caller's, when one was lent and the call returned early; none when
    none was lent and none was built) and the returned collection. *)
Record Outcome : Type := mkOutcome {
  original : Model;
  auxiliary : option Model;
  returned : list Constr
}.

(** Lines 50-121, for a call that lends no model or a model other than the
    original: the two are then two objects, passed by value.  The call
    that lends the original model itself is [get_iis_lending_itself]
    below, and [invoke] covers every call.  The returned collection is the
    auxiliary model's live constraint list, or the empty set of the early
    return. *)
Definition get_iis_additive_deletion_method
    (mip_model : Model) (premade_aux_mip_model : option Model) : Outcome :=
  let mip_model := ensure_solved mip_model in
  if is_feasible (status mip_model) then
    mkOutcome mip_model premade_aux_mip_model []
  else
    let aux_mip_model := build_aux mip_model premade_aux_mip_model in
    let '(aux_mip_model, i) := additive (constrs mip_model) aux_mip_model 0 in
    let temp := skipn i (constrs aux_mip_model) in
    let aux_mip_model := deletion temp aux_mip_model in
    mkOutcome mip_model (Some aux_mip_model) (constrs aux_mip_model).

End Models.

(** ** The filter in the words of its description

    The candidate set and the trigger, defined from the statuses the solver
    reports for prefixes of the original constraint sequence, without
    running the loops. *)

Section Described.

Context {Num LinExpr Sos : Type}.
Variable solver : @Problem Num LinExpr Sos -> OptimizationStatus.

(** The status the auxiliary model [aux] reports when its rows are [es]. *)
Definition reported (aux : @Model Num LinExpr Sos) (es : list LinExpr)
  : OptimizationStatus :=
  solver (with_exprs aux es).

(** The trigger: the first position whose addition makes the auxiliary
    model report Infeasible or IntegerInfeasible. *)
Definition trigger_position (aux : @Model Num LinExpr Sos)
    (es : list LinExpr) : option nat :=
  find (fun k => is_infeasible (reported aux (firstn (S k) es)))
       (seq 0 (length es)).

(** The candidate set: everything added up to and including the trigger,
    or the entire sequence when there is no trigger. *)
Definition candidate_set (aux : @Model Num LinExpr Sos)
    (es : list LinExpr) : list LinExpr :=
  match trigger_position aux es with
  | Some k => firstn (S k) es
  | None => es
  end.

(** One of the four statuses that settle feasibility either way. *)
Definition decisive (s : OptimizationStatus) : bool :=
  is_feasible s || is_infeasible s.

(** What neither phase writes: everything the solver reads besides the
    rows, and the verbosity. *)
Definition frame (m : @Model Num LinExpr Sos) :=
  (vars m, sos m, objective m, emphasis m, preprocess m, verbose m).

(** Handles are distinct objects, and the next one is new. *)
Definition well_keyed (m : @Model Num LinExpr Sos) : Prop :=
  NoDup (map (@uid LinExpr) (constrs m))
  /\ Forall (fun c => uid c < next_uid m) (constrs m).

(** The events of one additive step. *)
Definition add_and_solve (e : LinExpr) : list (@Event Num LinExpr) :=
  [EvAddConstr e; EvOptimize].

(** Verbosity of the auxiliary model once built: written only on the
    branch that creates the model. *)
Definition built_verbosity (premade : option (@Model Num LinExpr Sos)) : Z :=
  match premade with
  | Some m => verbose (clear m)
  | None => 0%Z
  end.

(** The statuses and intermediate models of one call, named once. *)
Definition solved (mip_model : @Model Num LinExpr Sos) : Model :=
  ensure_solved solver mip_model.

Definition aux_built (mip_model : @Model Num LinExpr Sos)
    (premade : option Model) : Model :=
  build_aux (solved mip_model) premade.

Definition additive_run (mip_model : @Model Num LinExpr Sos)
    (premade : option Model) : Model * nat :=
  additive solver (constrs (solved mip_model)) (aux_built mip_model premade) 0.

(** The additive loop left through its [break]. *)
Definition found_trigger (mip_model : @Model Num LinExpr Sos)
    (premade : option Model) : Prop :=
  snd (additive_run mip_model premade) < length (constrs (solved mip_model)).

End Described.

(** ** A reference solver

    The solver is outside the repository.  To run the filter on concrete
    models we use exhaustive search over the integer points of the
    variables' box, with a bound presolve and a node limit: exact when the
    limit covers the box, and answering [OTHER] when the limit is hit before
    a point is found. *)

Module Box.

Local Open Scope string_scope.
Local Open Scope Z_scope.

Inductive Sense : Type := LE | GE | EQ.

(** [sum terms + const (sense) 0], the shape of a Python-MIP [LinExpr]. *)
Record LinExpr : Type := mkLin {
  terms : list (Z * string);
  const : Z;
  sense : Sense
}.

(** A special ordered set of type 1: at most one member is non-zero. *)
Definition Sos1 : Type := list string.

Definition BVar : Type := @Var Z.
Definition BModel : Type := @Model Z LinExpr Sos1.
Definition BProblem : Type := @Problem Z LinExpr Sos1.

Definition assignment : Type := list (string * Z).

Fixpoint value (a : assignment) (x : string) : Z :=
  match a with
  | [] => 0
  | (y, v) :: rest => if String.eqb x y then v else value rest x
  end.

Definition eval (a : assignment) (e : LinExpr) : Z :=
  fold_right (fun t acc => fst t * value a (snd t) + acc) (const e) (terms e).

Definition holds (a : assignment) (e : LinExpr) : bool :=
  match sense e with
  | LE => eval a e <=? 0
  | GE => 0 <=? eval a e
  | EQ => eval a e =? 0
  end.

Definition sos_holds (a : assignment) (s : Sos1) : bool :=
  Nat.leb (length (filter (fun x => negb (value a x =? 0)) s)) 1.

Definition satisfies (p : BProblem) (a : assignment) : bool :=
  forallb (holds a) (p_exprs p) && forallb (sos_holds a) (p_sos p).

Fixpoint range (lo : Z) (n : nat) : list Z :=
  match n with
  | O => []
  | S n' => lo :: range (lo + 1) n'
  end.

Definition domain (v : BVar) : list Z :=
  range (lb v) (Z.to_nat (ub v - lb v + 1)).

Fixpoint box (vs : list BVar) : list assignment :=
  match vs with
  | [] => [[]]
  | v :: rest =>
      flat_map (fun x => map (cons (name v, x)) (box rest)) (domain v)
  end.

(** Presolve (on unless [preprocess] is 0): crossed bounds, and rows that
    no point of the box can satisfy, judged by the extreme values a row
    takes over the box. *)
Fixpoint bound_of (upper : bool) (vs : list BVar) (x : string) : Z :=
  match vs with
  | [] => 0
  | v :: rest =>
      if String.eqb x (name v) then (if upper then ub v else lb v)
      else bound_of upper rest x
  end.

Definition row_extreme (upper : bool) (vs : list BVar) (e : LinExpr) : Z :=
  fold_right
    (fun t acc =>
       fst t * bound_of (if 0 <=? fst t then upper else negb upper) vs (snd t)
       + acc)
    (const e) (terms e).

Definition row_impossible (vs : list BVar) (e : LinExpr) : bool :=
  match sense e with
  | LE => 0 <? row_extreme false vs e
  | GE => row_extreme true vs e <? 0
  | EQ => (0 <? row_extreme false vs e) || (row_extreme true vs e <? 0)
  end.

Definition presolve_infeasible (p : BProblem) : bool :=
  existsb (fun v => ub v <? lb v) (p_vars p)
  || (negb (p_preprocess p =? 0)
      && existsb (row_impossible (p_vars p)) (p_exprs p)).

(** Search at most [limit] points of the box. *)
Definition solve (limit : nat) (p : BProblem) : OptimizationStatus :=
  if presolve_infeasible p then INFEASIBLE
  else
    let points := box (p_vars p) in
    if existsb (satisfies p) (firstn limit points) then OPTIMAL
    else if Nat.leb (length points) limit then INT_INFEASIBLE
    else OTHER.

(** Search the whole box. *)
Definition exact (p : BProblem) : OptimizationStatus :=
  solve (length (box (p_vars p))) p.

Definition var (n : string) (l u : Z) : BVar := mkVar n l u INTEGER.

(** [c * x <= r], [c * x >= r] and [x + y >= r] as rows. *)
Definition le1 (c : Z) (x : string) (r : Z) : LinExpr :=
  mkLin [(c, x)] (- r) LE.
Definition ge1 (c : Z) (x : string) (r : Z) : LinExpr :=
  mkLin [(c, x)] (- r) GE.
Definition ge2 (x y : string) (r : Z) : LinExpr :=
  mkLin [(1, x); (1, y)] (- r) GE.

(** A model as user code builds it: variables, rows in order, SOS sets,
    not yet solved. *)
Definition build (vs : list BVar) (rows : list LinExpr) (ss : list Sos1)
  : BModel :=
  mkModel vs
          (map (fun ie => mkConstr (fst ie) (snd ie))
               (combine (seq 0 (length rows)) rows))
          ss (ObjConst 0) LOADED DEFAULT (-1) 0 (length rows) [].

(** The scenario of the source's first test: [v1 <= 5], [v1 >= 6],
    [v2 <= 1]. *)
Definition test01 : BModel :=
  build [var "v1" 0 10; var "v2" 0 10]
        [le1 1 "v1" 5; ge1 1 "v1" 6; le1 1 "v2" 1] [].

(** A feasible model. *)
Definition easy : BModel :=
  build [var "v1" 0 10] [le1 1 "v1" 5] [].

(** Contradictory bounds: infeasible before any row is added. *)
Definition crossed_bounds : BModel :=
  build [var "x" 1 0] [le1 1 "x" 5] [].

(** Infeasible only through an SOS set, which the auxiliary model never
    receives. *)
Definition sos_only : BModel :=
  build [mkVar "x" 0 1 BINARY; mkVar "y" 0 1 BINARY]
        [ge1 1 "x" 1; ge1 1 "y" 1] [["x"; "y"]].

(** A box of 10201 points searched under a limit of 50 nodes. *)
Definition wide : BModel :=
  build [var "x" 0 100; var "y" 0 100]
        [ge2 "x" "y" 150; ge1 1 "x" 101] [].

(** One call of the filter on a concrete model. *)
Definition run (solver : BProblem -> OptimizationStatus) (m : BModel)
    (premade : option BModel) : @Outcome Z LinExpr Sos1 :=
  get_iis_additive_deletion_method solver m premade.

(** The auxiliary model a call leaves, when it leaves one. *)
Definition aux_after (solver : BProblem -> OptimizationStatus) (m : BModel)
    (premade : option BModel) : BModel :=
  match auxiliary (run solver m premade) with
  | Some aux => aux
  | None => new_model
  end.

(** The last member of the returned collection, and the members before
    it. *)
Definition last_returned (solver : BProblem -> OptimizationStatus)
    (m : BModel) (premade : option BModel) : @Constr LinExpr :=
  last (returned (run solver m premade)) (mkConstr 0 (mkLin [] 0 EQ)).

Definition front_returned (solver : BProblem -> OptimizationStatus)
    (m : BModel) (premade : option BModel) : list (@Constr LinExpr) :=
  removelast (returned (run solver m premade)).

(** The search under a limit of 50 nodes. *)
Definition limited : BProblem -> OptimizationStatus := solve 50.

(** Points used to exhibit feasibility by hand. *)
Definition both_one : assignment := [("x", 1); ("y", 1)].
Definition midpoint : assignment := [("x", 75); ("y", 75)].

(** A caller's scratch model, left over from earlier use. *)
Definition scratch : BModel :=
  mkModel [var "old" 0 1] [mkConstr 0 (le1 1 "old" 0)] [] (ObjConst 0)
          OPTIMAL DEFAULT (-1) 1 1 [EvOptimize].

End Box.

(** ** Every way of calling the filter

    The second argument is optional and nothing in the source tests it
    against the first, so a call lends no model, another model, or the
    original model itself.  In the last case one object plays both roles:
    what the call does to the auxiliary model it does to the original. *)

Section Lending.

Context {Num LinExpr Sos : Type}.
Variable solver : @Problem Num LinExpr Sos -> OptimizationStatus.

Inductive Lending : Type :=
| NoModel
| Another (premade_aux_mip_model : @Model Num LinExpr Sos)
| Itself.

(** Lines 50-121 with [premade_aux_mip_model is mip_model].  Line 65
    solves the one object, line 74 clears it and lines 79-82 configure it.
    [mip_model.vars] at line 84 and [mip_model.constrs] at line 93 are then
    the lists of that same, just cleared, object, which is where the loops
    read them from. *)
Definition get_iis_lending_itself (mip_model : @Model Num LinExpr Sos)
  : Outcome :=
  let mip_model := ensure_solved solver mip_model in
  if is_feasible (status mip_model) then
    mkOutcome mip_model (Some mip_model) []
  else
    let aux_mip_model := clear mip_model in
    let aux_mip_model := set_emphasis aux_mip_model FEASIBILITY in
    let aux_mip_model := set_preprocess aux_mip_model 1 in
    let aux_mip_model := set_objective aux_mip_model (ObjConst 0) in
    let aux_mip_model := copy_vars (vars aux_mip_model) aux_mip_model in
    let '(aux_mip_model, i) :=
      additive solver (constrs aux_mip_model) aux_mip_model 0 in
    let temp := skipn i (constrs aux_mip_model) in
    let aux_mip_model := deletion solver temp aux_mip_model in
    mkOutcome aux_mip_model (Some aux_mip_model) (constrs aux_mip_model).

(** One invocation, whatever is lent. *)
Definition invoke (mip_model : @Model Num LinExpr Sos) (lending : Lending)
  : Outcome :=
  match lending with
  | NoModel => get_iis_additive_deletion_method solver mip_model None
  | Another premade =>
      get_iis_additive_deletion_method solver mip_model (Some premade)
  | Itself => get_iis_lending_itself mip_model
  end.

(** The lent model as the caller holds it when the call starts. *)
Definition lent_on_entry (mip_model : @Model Num LinExpr Sos)
    (lending : Lending) : option (@Model Num LinExpr Sos) :=
  match lending with
  | NoModel => None
  | Another premade => Some premade
  | Itself => Some mip_model
  end.

End Lending.

(** ** The test helper

    [Tests.assertConstrExprSetEqual] (lines 130-158).  A Python set is
    given by the list of its members in iteration order; the comparison
    [lin_expr1.equals(lin_expr2)] belongs to the modelling library and
    enters as a function. *)

(** How an assertion ends: it returns, or raises [self.failureException]
    with a message. *)
Inductive TestOutcome : Type :=
| Passed
| failureException (msg : string).

(** Line 145 and line 157. *)
Definition msg : string := "Sets of mip.LinExpr are not identical.".

Section TestHelper.

Context {LinExpr : Type}.
Variable equals : LinExpr -> LinExpr -> bool.

(** Lines 138-142: [ok] after the inner loop over the second set. *)
Fixpoint some_equal_in (lin_expr1 : LinExpr) (constr_exprs_set2 : list LinExpr)
  : bool :=
  match constr_exprs_set2 with
  | [] => false
  | lin_expr2 :: rest =>
      if equals lin_expr1 lin_expr2 then true
      else some_equal_in lin_expr1 rest
  end.

(** Lines 150-154: [ok] after the inner loop over the first set. *)
Fixpoint equal_to_some (constr_exprs_set1 : list LinExpr) (lin_expr2 : LinExpr)
  : bool :=
  match constr_exprs_set1 with
  | [] => false
  | lin_expr1 :: rest =>
      if equals lin_expr1 lin_expr2 then true
      else equal_to_some rest lin_expr2
  end.

(** Lines 136-146. *)
Fixpoint each_of_first (constr_exprs_set1 constr_exprs_set2 : list LinExpr)
  : TestOutcome :=
  match constr_exprs_set1 with
  | [] => Passed
  | lin_expr1 :: rest =>
      if some_equal_in lin_expr1 constr_exprs_set2
      then each_of_first rest constr_exprs_set2
      else failureException msg
  end.

(** Lines 148-158. *)
Fixpoint each_of_second (constr_exprs_set2 constr_exprs_set1 : list LinExpr)
  : TestOutcome :=
  match constr_exprs_set2 with
  | [] => Passed
  | lin_expr2 :: rest =>
      if equal_to_some constr_exprs_set1 lin_expr2
      then each_of_second rest constr_exprs_set1
      else failureException msg
  end.

Definition assertConstrExprSetEqual
    (constr_exprs_set1 constr_exprs_set2 : list LinExpr) : TestOutcome :=
  match each_of_first constr_exprs_set1 constr_exprs_set2 with
  | Passed => each_of_second constr_exprs_set2 constr_exprs_set1
  | failureException m => failureException m
  end.

End TestHelper.

(** ** Counting solver calls *)

Section Counting.

Context {Num LinExpr : Type}.

Definition is_optimize (ev : @Event Num LinExpr) : bool :=
  match ev with
  | EvOptimize => true
  | _ => false
  end.

(** The number of solves in a stretch of history. *)
Definition solves (h : list (@Event Num LinExpr)) : nat :=
  length (filter is_optimize h).

End Counting.

(** ** More concrete material *)

Module BoxTests.

Local Open Scope string_scope.
Local Open Scope Z_scope.

Definition sense_eqb (s t : Box.Sense) : bool :=
  match s, t with
  | Box.LE, Box.LE | Box.GE, Box.GE | Box.EQ, Box.EQ => true
  | _, _ => false
  end.

Fixpoint terms_eqb (ts us : list (Z * string)) : bool :=
  match ts, us with
  | [], [] => true
  | (c, x) :: ts', (d, y) :: us' =>
      (c =? d) && String.eqb x y && terms_eqb ts' us'
  | _, _ => false
  end.

(** Equality of rows, term by term. *)
Definition lin_equals (e f : Box.LinExpr) : bool :=
  terms_eqb (Box.terms e) (Box.terms f)
  && (Box.const e =? Box.const f)
  && sense_eqb (Box.sense e) (Box.sense f).

(** An infeasible model without any row. *)
Definition rowless : Box.BModel :=
  Box.build [Box.var "x" 1 0] [] [].

(** What the first test expects: the rows of [c1] and [c2]. *)
Definition expected01 : list Box.LinExpr :=
  [Box.le1 1 "v1" 5; Box.ge1 1 "v1" 6].

(** The rows of the first test with the bystander [v2 <= 1] moved to the
    front. *)
Definition reordered : Box.BModel :=
  Box.build [Box.var "v1" 0 10; Box.var "v2" 0 10]
            [Box.le1 1 "v2" 1; Box.le1 1 "v1" 5; Box.ge1 1 "v1" 6] [].

(** Lending a model to itself. *)
Definition itself : @Lending Z Box.LinExpr Box.Sos1 := Itself.

(** The same members, iterated in another order and with a repeat. *)
Definition shuffled01 : list Box.LinExpr :=
  [Box.ge1 1 "v1" 6; Box.le1 1 "v1" 5; Box.ge1 1 "v1" 6].

End BoxTests.

(** * Properties *)

(** Split a chain of conjunctions, leaving defined predicates folded. *)
Ltac conjs :=
  lazymatch goal with
  | |- _ /\ _ => apply conj; [|conjs]
  | _ => idtac
  end.

(** ** Lists *)

Lemma find_seq_first (p : nat -> bool) :
  forall n s k,
    k < n -> p (s + k) = true ->
    (forall j, j < k -> p (s + j) = false) ->
    find p (seq s n) = Some (s + k).
Proof.
  induction n as [|n IH]; intros s k Hk Hp Hbefore; [lia|].
  simpl. destruct k as [|k].
  - rewrite Nat.add_0_r in *. now rewrite Hp.
  - rewrite <- (Nat.add_0_r s) at 1.
    rewrite (Hbefore 0) by lia.
    replace (s + S k) with (S s + k) in * by lia.
    apply IH; [lia | assumption |].
    intros j Hj. replace (S s + j) with (s + S j) by lia.
    apply Hbefore. lia.
Qed.


Lemma skipn_last (A : Type) (l : list A) :
  forall i, length l = S i -> exists t, skipn i l = [t].
Proof.
  intros i Hlen.
  assert (Hs : length (skipn i l) = 1) by (rewrite length_skipn; lia).
  destruct (skipn i l) as [|t [|u rest]]; try discriminate.
  now exists t.
Qed.

Section Facts.

Context {Num LinExpr Sos : Type}.
Variable solver : @Problem Num LinExpr Sos -> OptimizationStatus.


(** ** Handles *)

Lemma keep_others (t : @Constr LinExpr) (l : list (@Constr LinExpr)) :
  ~ In (uid t) (map (@uid LinExpr) l) ->
  filter (fun d => negb (existsb (same_handle d) [t])) l = l.
Proof.
  induction l as [|a l IH]; intros Hnot; [reflexivity|].
  simpl in *. unfold same_handle at 1.
  destruct (Nat.eqb_spec (uid a) (uid t)) as [Heq|Hne].
  - exfalso. apply Hnot. left. exact Heq.
  - simpl. f_equal. apply IH. intros Hin. apply Hnot. now right.
Qed.

Lemma remove_last_handle (t : @Constr LinExpr) (l : list (@Constr LinExpr)) :
  NoDup (map (@uid LinExpr) (l ++ [t])) ->
  filter (fun d => negb (existsb (same_handle d) [t])) (l ++ [t]) = l.
Proof.
  intros Hnd. rewrite filter_app.
  rewrite map_app in Hnd. simpl in Hnd.
  apply NoDup_remove_2 in Hnd. rewrite app_nil_r in Hnd.
  rewrite (keep_others t l Hnd).
  simpl. unfold same_handle. rewrite Nat.eqb_refl. simpl.
  apply app_nil_r.
Qed.

Lemma well_keyed_add_constr (m : @Model Num LinExpr Sos) (e : LinExpr) :
  well_keyed m -> well_keyed (add_constr m e).
Proof.
  intros [Hnd Hlt]. split; simpl.
  - rewrite map_app. simpl.
    apply NoDup_app; [exact Hnd | repeat constructor; intros [] |].
    intros u Hin [Hu|[]]. subst u.
    apply in_map_iff in Hin. destruct Hin as [c [Hc Hin]].
    rewrite Forall_forall in Hlt. specialize (Hlt c Hin). lia.
  - apply Forall_app. split.
    + eapply Forall_impl; [|exact Hlt]. simpl. intros c Hc. lia.
    + repeat constructor.
Qed.

Lemma well_keyed_optimize (m : @Model Num LinExpr Sos) :
  well_keyed m -> well_keyed (optimize solver m).
Proof. intros H. exact H. Qed.

(** ** The frame *)

Lemma with_exprs_frame (m m' : @Model Num LinExpr Sos) (es : list LinExpr) :
  frame m' = frame m -> with_exprs m' es = with_exprs m es.
Proof.
  unfold frame, with_exprs. intros H.
  injection H as -> -> -> -> -> _. reflexivity.
Qed.

Lemma reported_frame (m m' : @Model Num LinExpr Sos) (es : list LinExpr) :
  frame m' = frame m -> reported solver m' es = reported solver m es.
Proof.
  intros H. unfold reported. now rewrite (with_exprs_frame es H).
Qed.

Lemma status_optimize (m : @Model Num LinExpr Sos) :
  status (optimize solver m) = reported solver m (exprs m).
Proof. reflexivity. Qed.

(** ** The auxiliary model as built *)

Lemma copy_vars_spec (vs : list (@Var Num)) :
  forall aux : @Model Num LinExpr Sos,
    vars (copy_vars vs aux) = vars aux ++ vs
    /\ constrs (copy_vars vs aux) = constrs aux
    /\ sos (copy_vars vs aux) = sos aux
    /\ objective (copy_vars vs aux) = objective aux
    /\ emphasis (copy_vars vs aux) = emphasis aux
    /\ preprocess (copy_vars vs aux) = preprocess aux
    /\ verbose (copy_vars vs aux) = verbose aux
    /\ next_uid (copy_vars vs aux) = next_uid aux
    /\ history (copy_vars vs aux) = history aux ++ map (@EvAddVar Num LinExpr) vs.
Proof.
  induction vs as [|v vs IH]; intros aux; simpl.
  - now rewrite !app_nil_r.
  - destruct (IH (add_var aux (name v) (lb v) (ub v) (var_type v)))
      as (Hv & Hc & Hs & Ho & He & Hp & Hvb & Hn & Hh).
    rewrite Hv, Hc, Hs, Ho, He, Hp, Hvb, Hn, Hh. simpl.
    rewrite <- !app_assoc. simpl. destruct v; simpl.
    repeat split; reflexivity.
Qed.

Lemma build_aux_spec (mip_model : @Model Num LinExpr Sos) (premade : option (@Model Num LinExpr Sos)) :
  let aux := build_aux mip_model premade in
  vars aux = vars mip_model
  /\ constrs aux = []
  /\ sos aux = []
  /\ objective aux = ObjConst 0
  /\ emphasis aux = FEASIBILITY
  /\ preprocess aux = 1%Z
  /\ verbose aux = built_verbosity premade.
Proof.
  unfold build_aux.
  match goal with |- context [copy_vars ?vs ?a] =>
    destruct (copy_vars_spec vs a)
      as (Hv & Hc & Hs & Ho & He & Hp & Hvb & Hn & Hh)
  end.
  cbv zeta. rewrite Hv, Hc, Hs, Ho, He, Hp, Hvb.
  destruct premade; simpl; repeat split; reflexivity.
Qed.

Lemma build_aux_well_keyed (mip_model : @Model Num LinExpr Sos) (premade : option (@Model Num LinExpr Sos)) :
  well_keyed (build_aux mip_model premade).
Proof.
  destruct (build_aux_spec mip_model premade) as (_ & Hc & _).
  cbv zeta in Hc. unfold well_keyed. rewrite Hc. simpl.
  split; constructor.
Qed.

(** ** The additive loop *)

Lemma exprs_add_constr (m : @Model Num LinExpr Sos) (e : LinExpr) :
  exprs (optimize solver (add_constr m e)) = exprs m ++ [e].
Proof. unfold exprs. simpl. now rewrite map_app. Qed.

Lemma status_add_constr (m : @Model Num LinExpr Sos) (e : LinExpr) :
  status (optimize solver (add_constr m e))
  = reported solver m (exprs m ++ [e]).
Proof.
  rewrite status_optimize. unfold reported, exprs. simpl.
  now rewrite map_app.
Qed.

Lemma additive_spec (cs : list (@Constr LinExpr)) :
  forall (aux : @Model Num LinExpr Sos) (i : nat),
    well_keyed aux ->
    exists k,
      snd (additive solver cs aux i) = i + k
      /\ k <= length cs
      /\ frame (fst (additive solver cs aux i)) = frame aux
      /\ well_keyed (fst (additive solver cs aux i))
      /\ exprs (fst (additive solver cs aux i))
         = exprs aux ++ firstn (S k) (map (@expr LinExpr) cs)
      /\ history (fst (additive solver cs aux i))
         = history aux
           ++ flat_map (@add_and_solve Num LinExpr)
                       (firstn (S k) (map (@expr LinExpr) cs))
      /\ (forall j, j < k ->
            is_infeasible
              (reported solver aux
                 (exprs aux ++ firstn (S j) (map (@expr LinExpr) cs)))
            = false)
      /\ (k < length cs ->
            is_infeasible
              (reported solver aux
                 (exprs aux ++ firstn (S k) (map (@expr LinExpr) cs)))
            = true
            /\ status (fst (additive solver cs aux i))
               = reported solver aux
                   (exprs aux ++ firstn (S k) (map (@expr LinExpr) cs))).
Proof.
  induction cs as [|c rest IH]; intros aux i Hwk.
  - exists 0. simpl. rewrite !app_nil_r.
    conjs; try assumption; try reflexivity; intros; lia.
  - cbn [additive].
    pose proof (status_add_constr aux (expr c)) as Hst.
    pose proof (exprs_add_constr aux (expr c)) as Hex.
    set (aux1 := optimize solver (add_constr aux (expr c))) in *.
    assert (Hfr : frame aux1 = frame aux) by reflexivity.
    assert (Hwk1 : well_keyed aux1)
      by (apply well_keyed_optimize, well_keyed_add_constr, Hwk).
    assert (Hh : history aux1 = history aux ++ add_and_solve (expr c)).
    { unfold aux1, add_and_solve. simpl. now rewrite <- app_assoc. }
    destruct (is_infeasible (status aux1)) eqn:Einf.
    + exists 0. cbn [fst snd map firstn flat_map length].
      rewrite app_nil_r.
      conjs; try assumption; try lia.
      intros _. split; [now rewrite <- Hst | exact Hst].
    + destruct (IH aux1 (S i) Hwk1)
        as (k & Hsnd & Hk & Hfr' & Hwk' & Hex' & Hh' & Hbefore & Hat).
      exists (S k). cbn [map length].
      conjs.
      * rewrite Hsnd. lia.
      * lia.
      * now rewrite Hfr'.
      * exact Hwk'.
      * rewrite Hex', Hex, <- app_assoc. reflexivity.
      * rewrite Hh', Hh, <- app_assoc. reflexivity.
      * intros j Hj. destruct j as [|j].
        -- cbn [firstn]. now rewrite <- Hst.
        -- specialize (Hbefore j ltac:(lia)).
           rewrite (reported_frame _ Hfr), Hex, <- app_assoc in Hbefore.
           exact Hbefore.
      * intros Hlt. destruct Hat as [Hat Hst']; [lia|].
        rewrite (reported_frame _ Hfr), Hex, <- app_assoc in Hat, Hst'.
        split; assumption.
Qed.

(** ** The deletion loop on the last row *)

Lemma well_keyed_remove_last (aux : @Model Num LinExpr Sos)
    (l : list (@Constr LinExpr)) (t : @Constr LinExpr) :
  constrs aux = l ++ [t] ->
  well_keyed aux ->
  well_keyed (remove aux [t]).
Proof.
  intros Hc [Hnd Hlt]. unfold well_keyed, remove. cbn [constrs next_uid].
  rewrite Hc in *. rewrite (@remove_last_handle t l Hnd).
  rewrite map_app in Hnd. apply NoDup_app_remove_r in Hnd.
  apply Forall_app in Hlt. split; [exact Hnd | exact (proj1 Hlt)].
Qed.

Lemma deletion_last (aux : @Model Num LinExpr Sos)
    (l : list (@Constr LinExpr)) (t : @Constr LinExpr) :
  constrs aux = l ++ [t] ->
  well_keyed aux ->
  frame (deletion solver [t] aux) = frame aux
  /\ well_keyed (deletion solver [t] aux)
  /\ status (deletion solver [t] aux)
     = reported solver aux (map (@expr LinExpr) l)
  /\ exprs (deletion solver [t] aux)
     = (if is_feasible (reported solver aux (map (@expr LinExpr) l))
        then map (@expr LinExpr) l ++ [expr t]
        else map (@expr LinExpr) l)
  /\ history (deletion solver [t] aux)
     = history aux
       ++ [EvRemoveConstr (expr t); EvOptimize]
       ++ (if is_feasible (reported solver aux (map (@expr LinExpr) l))
           then [EvAddConstr (expr t)] else []).
Proof.
  intros Hc Hwk.
  pose proof (@well_keyed_remove_last aux l t Hc Hwk) as Hwk'.
  apply well_keyed_optimize in Hwk'.
  destruct Hwk as [Hnd _].
  assert (Hrm : exprs (remove aux [t]) = map (@expr LinExpr) l).
  { unfold exprs, remove. cbn [constrs]. rewrite Hc.
    rewrite remove_last_handle; [reflexivity|]. now rewrite <- Hc. }
  assert (Hst : status (optimize solver (remove aux [t]))
                = reported solver aux (map (@expr LinExpr) l)).
  { rewrite status_optimize, Hrm. now apply reported_frame. }
  assert (Hex : exprs (optimize solver (remove aux [t]))
                = map (@expr LinExpr) l) by exact Hrm.
  assert (Hh : history (optimize solver (remove aux [t]))
               = history aux ++ [EvRemoveConstr (expr t); EvOptimize]).
  { simpl. now rewrite <- app_assoc. }
  cbn [deletion]. cbv zeta.
  rewrite Hst.
  destruct (is_feasible (reported solver aux (map (@expr LinExpr) l))).
  - conjs.
    + reflexivity.
    + now apply well_keyed_add_constr.
    + exact Hst.
    + unfold exprs in *. cbn [add_constr constrs].
      rewrite map_app, Hex. reflexivity.
    + cbn [add_constr history]. rewrite Hh, <- app_assoc. reflexivity.
  - conjs.
    + reflexivity.
    + exact Hwk'.
    + exact Hst.
    + exact Hex.
    + rewrite Hh. reflexivity.
Qed.

(** ** One whole call past the early return *)

Lemma run_spec (mip_model : @Model Num LinExpr Sos)
    (premade : option (@Model Num LinExpr Sos)) :
  is_feasible (status (solved solver mip_model)) = false ->
  exists aux1 i aux2,
    additive_run solver mip_model premade = (aux1, i)
    /\ get_iis_additive_deletion_method solver mip_model premade
       = mkOutcome (solved solver mip_model) (Some aux2) (constrs aux2)
    /\ frame aux1 = frame (aux_built solver mip_model premade)
    /\ frame aux2 = frame (aux_built solver mip_model premade)
    /\ well_keyed aux2
    /\ i <= length (exprs (solved solver mip_model))
    /\ exprs aux1 = firstn (S i) (exprs (solved solver mip_model))
    /\ history aux1
       = history (aux_built solver mip_model premade)
         ++ flat_map (@add_and_solve Num LinExpr)
                     (firstn (S i) (exprs (solved solver mip_model)))
    /\ (forall j, j < i ->
          is_infeasible
            (reported solver (aux_built solver mip_model premade)
               (firstn (S j) (exprs (solved solver mip_model))))
          = false)
    /\ (i < length (exprs (solved solver mip_model)) ->
          is_infeasible
            (reported solver (aux_built solver mip_model premade)
               (firstn (S i) (exprs (solved solver mip_model))))
          = true)
    /\ (i = length (exprs (solved solver mip_model)) -> aux2 = aux1)
    /\ (i < length (exprs (solved solver mip_model)) ->
        exists t,
          skipn i (constrs aux1) = [t]
          /\ firstn (S i) (exprs (solved solver mip_model))
             = firstn i (exprs (solved solver mip_model)) ++ [expr t]
          /\ status aux2
             = reported solver (aux_built solver mip_model premade)
                 (firstn i (exprs (solved solver mip_model)))
          /\ exprs aux2
             = (if is_feasible
                     (reported solver (aux_built solver mip_model premade)
                        (firstn i (exprs (solved solver mip_model))))
                then firstn (S i) (exprs (solved solver mip_model))
                else firstn i (exprs (solved solver mip_model)))
          /\ history aux2
             = history aux1
               ++ [EvRemoveConstr (expr t); EvOptimize]
               ++ (if is_feasible
                        (reported solver (aux_built solver mip_model premade)
                           (firstn i (exprs (solved solver mip_model))))
                   then [EvAddConstr (expr t)] else [])).
Proof.
  intros Hnf.
  unfold get_iis_additive_deletion_method, additive_run.
  change (ensure_solved solver mip_model) with (solved solver mip_model).
  change (build_aux (solved solver mip_model) premade)
    with (aux_built solver mip_model premade).
  rewrite Hnf.
  set (m1 := solved solver mip_model) in *.
  set (aux0 := aux_built solver mip_model premade) in *.
  destruct (build_aux_spec m1 premade) as (_ & Hc0 & _).
  pose proof (build_aux_well_keyed m1 premade) as Hwk0.
  change (build_aux m1 premade) with aux0 in Hc0, Hwk0.
  assert (He0 : exprs aux0 = []) by (unfold exprs; now rewrite Hc0).
  destruct (additive_spec (constrs m1) 0 Hwk0)
    as (k & Hsnd & Hk & Hfr & Hwk1 & Hex & Hh & Hbefore & Hat).
  destruct (additive solver (constrs m1) aux0 0) as [aux1 i].
  cbn [fst snd] in *. cbn [Nat.add] in Hsnd. subst i.
  fold (exprs m1) in *. rewrite He0 in *. cbn [app] in *.
  assert (Hlen_es : length (exprs m1) = length (constrs m1))
    by (unfold exprs; apply length_map).
  assert (Hlen1 : length (constrs aux1) = Nat.min (S k) (length (exprs m1))).
  { rewrite <- (length_map (@expr LinExpr)). fold (exprs aux1).
    rewrite Hex. apply length_firstn. }
  exists aux1, k, (deletion solver (skipn k (constrs aux1)) aux1).
  destruct (Nat.eq_dec k (length (exprs m1))) as [Hall|Hsome].
  - assert (Hskip : skipn k (constrs aux1) = [])
      by (apply skipn_all2; lia).
    rewrite Hskip. cbn [deletion].
    conjs; try reflexivity; try assumption; lia.
  - assert (Hlt : k < length (exprs m1)) by lia.
    destruct (skipn_last (constrs aux1) (i := k) ltac:(lia)) as [t Ht].
    pose proof (firstn_skipn k (constrs aux1)) as Hsplit.
    rewrite Ht in Hsplit. symmetry in Hsplit.
    assert (Hpre : map (@expr LinExpr) (firstn k (constrs aux1))
                   = firstn k (exprs m1)).
    { rewrite <- firstn_map. fold (exprs aux1). rewrite Hex.
      rewrite firstn_firstn. f_equal. lia. }
    assert (Hsnoc : firstn (S k) (exprs m1)
                    = firstn k (exprs m1) ++ [expr t]).
    { rewrite <- Hex, <- Hpre. unfold exprs at 1.
      rewrite Hsplit at 1. now rewrite map_app. }
    destruct (@deletion_last aux1 _ t Hsplit Hwk1)
      as (Hfr2 & Hwk2 & Hst2 & Hex2 & Hh2).
    rewrite Hpre, (reported_frame _ Hfr) in Hst2, Hex2, Hh2.
    rewrite <- Hsnoc in Hex2.
    rewrite Ht.
    conjs; try reflexivity; try assumption; try lia.
    + now rewrite Hfr2.
    + intros _. destruct (Hat ltac:(lia)) as [Hinf _]. exact Hinf.
    + intros _. exists t. conjs; try reflexivity; assumption.
Qed.

(** ** The trigger, as described and as found *)

Lemma trigger_position_found (aux : @Model Num LinExpr Sos)
    (es : list LinExpr) (i : nat) :
  i < length es ->
  (forall j, j < i ->
     is_infeasible (reported solver aux (firstn (S j) es)) = false) ->
  is_infeasible (reported solver aux (firstn (S i) es)) = true ->
  trigger_position solver aux es = Some i.
Proof.
  intros Hi Hbefore Hat. unfold trigger_position.
  exact (@find_seq_first
           (fun k => is_infeasible (reported solver aux (firstn (S k) es)))
           (length es) 0 i Hi Hat Hbefore).
Qed.


(** ** The early return *)

(** C2: when the original model, solved if it had to be, is Optimal or
    Feasible, the call returns the empty collection at once: no auxiliary
    model is built or touched, so neither phase runs. *)
Theorem feasible_input_returns_empty
    (mip_model : @Model Num LinExpr Sos)
    (premade : option (@Model Num LinExpr Sos)) :
  is_feasible (status (solved solver mip_model)) = true ->
  returned (get_iis_additive_deletion_method solver mip_model premade) = []
  /\ auxiliary (get_iis_additive_deletion_method solver mip_model premade)
     = premade
  /\ original (get_iis_additive_deletion_method solver mip_model premade)
     = solved solver mip_model.
Proof.
  intros Hf. unfold get_iis_additive_deletion_method.
  change (ensure_solved solver mip_model) with (solved solver mip_model).
  rewrite Hf. repeat split.
Qed.

(** Another model, lent, comes back exactly as it was lent (not cleared,
    no setting written, nothing appended to its history) when the original
    model is Feasible or Optimal. *)
Lemma premade_untouched_on_feasible
    (mip_model premade : @Model Num LinExpr Sos) :
  is_feasible (status (solved solver mip_model)) = true ->
  auxiliary (get_iis_additive_deletion_method solver mip_model (Some premade))
  = Some premade.
Proof.
  intros Hf. unfold get_iis_additive_deletion_method.
  change (ensure_solved solver mip_model) with (solved solver mip_model).
  now rewrite Hf.
Qed.


(** ** The additive phase *)


Lemma infeasible_not_feasible (s : OptimizationStatus) :
  is_infeasible s = true -> is_feasible s = false.
Proof. destruct s; simpl; congruence. Qed.

Lemma decisive_cases (s : OptimizationStatus) :
  decisive s = true -> is_infeasible s = false -> is_feasible s = true.
Proof. unfold decisive. destruct s; simpl; congruence. Qed.

Lemma found_trigger_lt (mip_model : @Model Num LinExpr Sos)
    (premade : option (@Model Num LinExpr Sos)) :
  found_trigger solver mip_model premade ->
  snd (additive_run solver mip_model premade)
  < length (exprs (solved solver mip_model)).
Proof. unfold found_trigger, exprs. now rewrite length_map. Qed.

(** C4, amended: when the additive phase finds a trigger, the candidate
    set is the original sequence up to the trigger and is reported
    Infeasible or IntegerInfeasible; every non-empty strict prefix of it
    was reported something else when it was solved alone in the auxiliary
    model, hence Feasible or Optimal whenever the report is one of the four
    decisive statuses.  The empty prefix is never solved by the phase. *)
Theorem candidate_prefixes_not_infeasible
    (mip_model : @Model Num LinExpr Sos)
    (premade : option (@Model Num LinExpr Sos)) :
  is_feasible (status (solved solver mip_model)) = false ->
  found_trigger solver mip_model premade ->
  let es := exprs (solved solver mip_model) in
  let aux0 := aux_built solver mip_model premade in
  let aux1 := fst (additive_run solver mip_model premade) in
  let i := snd (additive_run solver mip_model premade) in
  exprs aux1 = firstn (S i) es
  /\ is_infeasible (reported solver aux0 (firstn (S i) es)) = true
  /\ (forall j, 0 < j -> j <= i ->
        is_infeasible (reported solver aux0 (firstn j es)) = false)
  /\ (forall j, 0 < j -> j <= i ->
        decisive (reported solver aux0 (firstn j es)) = true ->
        is_feasible (reported solver aux0 (firstn j es)) = true).
Proof.
  intros Hnf Hfound. apply found_trigger_lt in Hfound.
  destruct (run_spec mip_model premade Hnf)
    as (aux1 & i & aux2 & Hrun & _ & _ & _ & _ & Hi & Hex & _
        & Hbefore & Hat & _).
  cbv zeta. rewrite Hrun in *. cbn [fst snd] in *.
  assert (Hpre : forall j, 0 < j -> j <= i ->
            is_infeasible
              (reported solver (aux_built solver mip_model premade)
                 (firstn j (exprs (solved solver mip_model)))) = false).
  { intros [|j] Hpos Hj; [lia|]. apply Hbefore. lia. }
  conjs; auto.
  intros j Hpos Hj Hdec. apply decisive_cases; auto.
Qed.

(** ** The deletion phase *)

(** C5, amended: past the early return the deletion phase tests exactly
    the rows from position [i] to the end of the auxiliary model's list, in
    order: none when the additive loop ran out, the trigger alone when it
    stopped.  The trigger is removed and the model solved; it stays removed
    if and only if the status is neither Feasible nor Optimal (so also on
    statuses other than Infeasible and IntegerInfeasible), and is otherwise
    appended again from the expression cached before the removal. *)
Theorem deletion_phase_tests_the_trigger
    (mip_model : @Model Num LinExpr Sos)
    (premade : option (@Model Num LinExpr Sos)) :
  is_feasible (status (solved solver mip_model)) = false ->
  let es := exprs (solved solver mip_model) in
  let aux0 := aux_built solver mip_model premade in
  let aux1 := fst (additive_run solver mip_model premade) in
  let i := snd (additive_run solver mip_model premade) in
  exists aux2,
    auxiliary (get_iis_additive_deletion_method solver mip_model premade)
    = Some aux2
    /\ returned (get_iis_additive_deletion_method solver mip_model premade)
       = constrs aux2
    /\ (~ i < length es -> skipn i (constrs aux1) = [] /\ aux2 = aux1)
    /\ (i < length es ->
        exists t,
          skipn i (constrs aux1) = [t]
          /\ exprs aux1 = firstn i es ++ [expr t]
          /\ status aux2 = reported solver aux0 (firstn i es)
          /\ (exprs aux2 = firstn i es <-> is_feasible (status aux2) = false)
          /\ (exprs aux2 = firstn i es ++ [expr t]
              <-> is_feasible (status aux2) = true)
          /\ history aux2
             = history aux1
               ++ [EvRemoveConstr (expr t); EvOptimize]
               ++ (if is_feasible (status aux2)
                   then [EvAddConstr (expr t)] else [])).
Proof.
  intros Hnf.
  destruct (run_spec mip_model premade Hnf)
    as (aux1 & i & aux2 & Hrun & Hout & _ & _ & _ & Hi & Hex & _
        & _ & _ & Hsame & Htest).
  cbv zeta. rewrite Hrun, Hout. cbn [fst snd auxiliary returned].
  set (es := exprs (solved solver mip_model)) in *.
  exists aux2. conjs; try reflexivity.
  - intros Hnot. assert (Hall : i = length es) by lia. split.
    + apply skipn_all2. rewrite <- (length_map (@expr LinExpr)).
      fold (exprs aux1). rewrite Hex, length_firstn. lia.
    + exact (Hsame Hall).
  - intros Hlt. destruct (Htest Hlt) as (t & Ht & Hsnoc & Hst & Hex2 & Hh).
    exists t. rewrite <- Hst in Hex2, Hh. rewrite Hsnoc in *.
    assert (Hneq : firstn i es ++ [expr t] <> firstn i es).
    { intros Heq. apply (f_equal (@length LinExpr)) in Heq.
      rewrite length_app in Heq. simpl in Heq. lia. }
    conjs; try assumption.
    + rewrite Hex2. destruct (is_feasible (status aux2)); split;
        congruence.
    + rewrite Hex2. destruct (is_feasible (status aux2)); split;
        congruence.
Qed.

(** C6, amended: when a trigger was found and the returned collection
    still holds it (the returned expressions are the candidate set),
    removing that last member from the auxiliary model and solving again
    yields Feasible or Optimal. *)
Theorem retained_trigger_is_necessary
    (mip_model : @Model Num LinExpr Sos)
    (premade : option (@Model Num LinExpr Sos)) :
  is_feasible (status (solved solver mip_model)) = false ->
  found_trigger solver mip_model premade ->
  forall aux2 rest t,
    auxiliary (get_iis_additive_deletion_method solver mip_model premade)
    = Some aux2 ->
    returned (get_iis_additive_deletion_method solver mip_model premade)
    = rest ++ [t] ->
    map (@expr LinExpr) (rest ++ [t])
    = exprs (fst (additive_run solver mip_model premade)) ->
    is_feasible (status (optimize solver (remove aux2 [t]))) = true.
Proof.
  intros Hnf Hfound aux rest t. apply found_trigger_lt in Hfound.
  destruct (run_spec mip_model premade Hnf)
    as (aux1 & i & aux2 & Hrun & Hout & _ & Hfr2 & Hwk2 & Hi & Hex & _
        & _ & _ & _ & Htest).
  rewrite Hrun in *. rewrite Hout. cbn [fst snd auxiliary returned] in *.
  intros Haux Hret Hkept. injection Haux as <-.
  destruct (Htest Hfound) as (t0 & _ & Hsnoc & _ & Hex2 & _).
  set (es := exprs (solved solver mip_model)) in *.
  set (aux0 := aux_built solver mip_model premade) in *.
  assert (Hfeas : is_feasible (reported solver aux0 (firstn i es)) = true).
  { destruct (is_feasible (reported solver aux0 (firstn i es)));
      [reflexivity|].
    exfalso. unfold exprs in Hex2 at 1. rewrite Hret, Hkept, Hex in Hex2.
    apply (f_equal (@length LinExpr)) in Hex2.
    rewrite !length_firstn in Hex2. lia. }
  assert (Hrest : map (@expr LinExpr) rest = firstn i es).
  { rewrite Hex, Hsnoc, map_app in Hkept. cbn [map] in Hkept.
    apply app_inj_tail in Hkept. exact (proj1 Hkept). }
  rewrite status_optimize.
  assert (Hrm : exprs (remove aux2 [t]) = map (@expr LinExpr) rest).
  { unfold exprs, remove. cbn [constrs]. rewrite Hret.
    rewrite remove_last_handle; [reflexivity|].
    rewrite <- Hret. exact (proj1 Hwk2). }
  rewrite Hrm, Hrest.
  rewrite (reported_frame (m := aux0) (m' := remove aux2 [t]));
    [exact Hfeas | exact Hfr2].
Qed.

(** C10, amended: the solver being a function of the formulation, when
    the additive phase finds a trigger, the status reported for the
    candidate set without its trigger is one of the four decisive ones and,
    should the trigger be the very first constraint, the auxiliary model
    without any row is not reported infeasible, then the deletion phase
    discards nothing: the trigger is appended again and the returned
    expressions are exactly the candidate set. *)
Theorem deletion_keeps_candidate_set
    (mip_model : @Model Num LinExpr Sos)
    (premade : option (@Model Num LinExpr Sos)) :
  is_feasible (status (solved solver mip_model)) = false ->
  found_trigger solver mip_model premade ->
  let es := exprs (solved solver mip_model) in
  let aux0 := aux_built solver mip_model premade in
  let i := snd (additive_run solver mip_model premade) in
  decisive (reported solver aux0 (firstn i es)) = true ->
  (i = 0 -> is_infeasible (reported solver aux0 []) = false) ->
  map (@expr LinExpr)
      (returned (get_iis_additive_deletion_method solver mip_model premade))
  = candidate_set solver aux0 es
  /\ candidate_set solver aux0 es
     = exprs (fst (additive_run solver mip_model premade))
  /\ exists aux2,
       auxiliary (get_iis_additive_deletion_method solver mip_model premade)
       = Some aux2
       /\ is_feasible (status aux2) = true.
Proof.
  intros Hnf Hfound. apply found_trigger_lt in Hfound.
  destruct (run_spec mip_model premade Hnf)
    as (aux1 & i & aux2 & Hrun & Hout & _ & _ & _ & Hi & Hex & _
        & Hbefore & Hat & _ & Htest).
  cbv zeta. rewrite Hrun in *. rewrite Hout.
  cbn [fst snd auxiliary returned] in *.
  set (es := exprs (solved solver mip_model)) in *.
  set (aux0 := aux_built solver mip_model premade) in *.
  intros Hdec Hfirst.
  destruct (Htest Hfound) as (t & _ & _ & Hst & Hex2 & _).
  assert (Hninf : is_infeasible (reported solver aux0 (firstn i es)) = false).
  { destruct i as [|i]; [exact (Hfirst eq_refl)|]. apply Hbefore. lia. }
  pose proof (decisive_cases _ Hdec Hninf) as Hfeas.
  rewrite Hfeas in Hex2.
  pose proof (trigger_position_found aux0 es Hfound Hbefore (Hat Hfound))
    as Htp.
  unfold candidate_set. rewrite Htp.
  conjs.
  - exact Hex2.
  - now rewrite Hex.
  - exists aux2. split; [reflexivity|]. now rewrite Hst.
Qed.

(** ** The result *)

(** C1, amended: for a model solved as Infeasible or IntegerInfeasible,
    provided the solver also reports the mirrored auxiliary model holding
    all the original expressions infeasible and, when a trigger is found,
    reports one of the four decisive statuses for the candidate set without
    it, solving the final auxiliary model (the original's variables, exactly
    the returned rows) yields Infeasible or IntegerInfeasible. *)
Theorem infeasibility_preserved_when_solver_agrees
    (mip_model : @Model Num LinExpr Sos)
    (premade : option (@Model Num LinExpr Sos)) :
  is_infeasible (status (solved solver mip_model)) = true ->
  let es := exprs (solved solver mip_model) in
  let aux0 := aux_built solver mip_model premade in
  let i := snd (additive_run solver mip_model premade) in
  is_infeasible (reported solver aux0 es) = true ->
  (i < length es -> decisive (reported solver aux0 (firstn i es)) = true) ->
  exists aux2,
    auxiliary (get_iis_additive_deletion_method solver mip_model premade)
    = Some aux2
    /\ vars aux2 = vars (solved solver mip_model)
    /\ constrs aux2
       = returned (get_iis_additive_deletion_method solver mip_model premade)
    /\ is_infeasible (status (optimize solver aux2)) = true.
Proof.
  intros Hinf. pose proof (infeasible_not_feasible _ Hinf) as Hnf.
  destruct (run_spec mip_model premade Hnf)
    as (aux1 & i & aux2 & Hrun & Hout & _ & Hfr2 & _ & Hi & Hex & _
        & _ & Hat & Hsame & Htest).
  cbv zeta. rewrite Hrun, Hout. cbn [fst snd auxiliary returned].
  set (es := exprs (solved solver mip_model)) in *.
  set (aux0 := aux_built solver mip_model premade) in *.
  intros Hwhole Hdec.
  exists aux2. conjs; try reflexivity.
  - destruct (build_aux_spec (solved solver mip_model) premade)
      as (Hv & _).
    change (build_aux (solved solver mip_model) premade) with aux0 in Hv.
    unfold frame in Hfr2. injection Hfr2 as Hv2 _. congruence.
  - rewrite status_optimize, (reported_frame _ Hfr2).
    destruct (Nat.ltb_spec i (length es)) as [Hlt|Hge].
    + destruct (Htest Hlt) as (t & _ & _ & _ & Hex2 & _).
      specialize (Hdec Hlt). rewrite Hex2.
      destruct (is_feasible (reported solver aux0 (firstn i es))) eqn:Hfeas.
      * exact (Hat Hlt).
      * unfold decisive in Hdec. rewrite Hfeas in Hdec. exact Hdec.
    + assert (Hall : i = length es) by lia.
      rewrite (Hsame Hall), Hex, firstn_all2 by lia. exact Hwhole.
Qed.

(** C7, amended: past the early return the auxiliary model, created or
    cleared, holds the original variables one for one (name, bounds, kind),
    no row and no SOS set before the additive phase, the constant zero
    objective, feasibility emphasis and presolve on, and keeps all of that
    to the end of the call.  Verbosity is silenced on a created model only;
    on a caller's model it is whatever clearing leaves. *)
Theorem auxiliary_model_mirrors_variables
    (mip_model : @Model Num LinExpr Sos)
    (premade : option (@Model Num LinExpr Sos)) :
  is_feasible (status (solved solver mip_model)) = false ->
  let aux0 := aux_built solver mip_model premade in
  vars aux0 = vars (solved solver mip_model)
  /\ vars (solved solver mip_model) = vars mip_model
  /\ constrs aux0 = []
  /\ sos aux0 = []
  /\ objective aux0 = ObjConst 0
  /\ emphasis aux0 = FEASIBILITY
  /\ preprocess aux0 = 1%Z
  /\ verbose aux0
     = match premade with
       | Some m => verbose (clear m)
       | None => 0%Z
       end
  /\ exists aux2,
       auxiliary (get_iis_additive_deletion_method solver mip_model premade)
       = Some aux2
       /\ frame aux2 = frame aux0.
Proof.
  intros Hnf.
  destruct (run_spec mip_model premade Hnf)
    as (aux1 & i & aux2 & _ & Hout & _ & Hfr2 & _).
  destruct (build_aux_spec (solved solver mip_model) premade)
    as (Hv & Hc & Hs & Ho & He & Hp & Hvb).
  cbv zeta. rewrite Hout. cbn [auxiliary].
  conjs; try assumption.
  - unfold solved, ensure_solved.
    destruct (is_loaded (status mip_model)); reflexivity.
  - exists aux2. split; [reflexivity | exact Hfr2].
Qed.

End Facts.

(** * The reference solver answers correctly

    Whatever [Box.solve] calls infeasible has no integer point in the box
    that satisfies every row and every SOS set; whatever it calls optimal
    has one; and the unlimited search always settles the question. *)

Section BoxSound.

Local Open Scope Z_scope.

Lemma box_range_bounds :
  forall n lo z, In z (Box.range lo n) -> lo <= z < lo + Z.of_nat n.
Proof.
  induction n as [|n IH]; intros lo z Hin; [destruct Hin|].
  cbn [Box.range] in Hin. destruct Hin as [<-|Hin]; [lia|].
  apply IH in Hin. lia.
Qed.

Lemma box_domain_bounds (v : Box.BVar) (z : Z) :
  In z (Box.domain v) -> lb v <= z <= ub v.
Proof.
  unfold Box.domain. intros Hin. apply box_range_bounds in Hin.
  destruct (Z_le_gt_dec (ub v - lb v + 1) 0) as [Hle|Hgt].
  - replace (Z.to_nat (ub v - lb v + 1)) with 0%nat in Hin by lia.
    simpl in Hin. lia.
  - rewrite Z2Nat.id in Hin by lia. lia.
Qed.

Lemma box_point_cons (v : Box.BVar) (rest : list Box.BVar)
    (a : Box.assignment) :
  In a (Box.box (v :: rest)) ->
  exists z a', a = (name v, z) :: a'
               /\ In z (Box.domain v) /\ In a' (Box.box rest).
Proof.
  cbn [Box.box]. intros Hin. apply in_flat_map in Hin.
  destruct Hin as (z & Hz & Hin). apply in_map_iff in Hin.
  destruct Hin as (a' & <- & Ha'). now exists z, a'.
Qed.

Lemma box_value_bounds :
  forall vs a, In a (Box.box vs) ->
  forall x, Box.bound_of false vs x <= Box.value a x
            <= Box.bound_of true vs x.
Proof.
  induction vs as [|v rest IH]; intros a Hin x.
  - destruct Hin as [<-|[]]. simpl. lia.
  - apply box_point_cons in Hin. destruct Hin as (z & a' & -> & Hz & Ha').
    apply box_domain_bounds in Hz. specialize (IH a' Ha' x).
    cbn [Box.value Box.bound_of].
    destruct (String.eqb x (name v)); lia.
Qed.

Lemma box_eval_bounds (vs : list Box.BVar) (a : Box.assignment)
    (e : Box.LinExpr) :
  In a (Box.box vs) ->
  Box.row_extreme false vs e <= Box.eval a e <= Box.row_extreme true vs e.
Proof.
  intros Hin. unfold Box.row_extreme, Box.eval.
  induction (Box.terms e) as [|[c x] ts IH]; cbn [fold_right fst snd].
  - lia.
  - pose proof (box_value_bounds vs a Hin x) as Hx.
    destruct (Z.leb_spec 0 c) as [Hc|Hc]; cbv iota beta; cbn [negb] in *.
    + pose proof (Z.mul_le_mono_nonneg_l _ _ c Hc (proj1 Hx)).
      pose proof (Z.mul_le_mono_nonneg_l _ _ c Hc (proj2 Hx)).
      lia.
    + pose proof (Z.mul_le_mono_nonpos_l _ _ c (Z.lt_le_incl _ _ Hc)
                    (proj1 Hx)).
      pose proof (Z.mul_le_mono_nonpos_l _ _ c (Z.lt_le_incl _ _ Hc)
                    (proj2 Hx)).
      lia.
Qed.

Lemma box_row_impossible_sound (vs : list Box.BVar) (a : Box.assignment)
    (e : Box.LinExpr) :
  In a (Box.box vs) -> Box.row_impossible vs e = true -> Box.holds a e = false.
Proof.
  intros Hin Himp. pose proof (box_eval_bounds vs a e Hin) as Hb.
  unfold Box.row_impossible in Himp. unfold Box.holds.
  destruct (Box.sense e).
  - apply Z.ltb_lt in Himp. apply Z.leb_gt. lia.
  - apply Z.ltb_lt in Himp. apply Z.leb_gt. lia.
  - apply Z.eqb_neq. apply orb_true_iff in Himp.
    destruct Himp as [H|H]; apply Z.ltb_lt in H; lia.
Qed.

Lemma box_crossed_empty :
  forall vs, existsb (fun v : Box.BVar => ub v <? lb v) vs = true ->
  Box.box vs = [].
Proof.
  induction vs as [|v rest IH]; intros Hex; [discriminate|].
  cbn [existsb] in Hex. cbn [Box.box].
  apply orb_true_iff in Hex. destruct Hex as [Hv|Hrest].
  - apply Z.ltb_lt in Hv. unfold Box.domain.
    replace (Z.to_nat (ub v - lb v + 1)) with 0%nat by lia. reflexivity.
  - rewrite (IH Hrest). induction (Box.domain v) as [|z zs IHz];
      [reflexivity | exact IHz].
Qed.

Lemma box_presolve_sound (p : Box.BProblem) (a : Box.assignment) :
  Box.presolve_infeasible p = true ->
  In a (Box.box (p_vars p)) ->
  Box.satisfies p a = false.
Proof.
  unfold Box.presolve_infeasible. intros Hpre Hin.
  apply orb_true_iff in Hpre. destruct Hpre as [Hcross|Hrow].
  - rewrite (box_crossed_empty _ Hcross) in Hin. destruct Hin.
  - apply andb_true_iff in Hrow. destruct Hrow as [_ Hrow].
    apply existsb_exists in Hrow. destruct Hrow as (e & He & Himp).
    unfold Box.satisfies.
    destruct (forallb (Box.holds a) (p_exprs p)) eqn:Hall; [|reflexivity].
    rewrite forallb_forall in Hall. specialize (Hall e He).
    rewrite (box_row_impossible_sound _ _ _ Hin Himp) in Hall.
    discriminate.
Qed.

Lemma box_existsb_false (A : Type) (f : A -> bool) (l : list A) (x : A) :
  existsb f l = false -> In x l -> f x = false.
Proof.
  intros Hex Hin. destruct (f x) eqn:Hfx; [|reflexivity].
  assert (Htrue : existsb f l = true)
    by (apply existsb_exists; now exists x).
  congruence.
Qed.

Lemma box_solve_infeasible_sound (limit : nat) (p : Box.BProblem)
    (a : Box.assignment) :
  is_infeasible (Box.solve limit p) = true ->
  In a (Box.box (p_vars p)) ->
  Box.satisfies p a = false.
Proof.
  unfold Box.solve. intros Hinf Hin.
  destruct (Box.presolve_infeasible p) eqn:Hpre;
    [exact (box_presolve_sound p a Hpre Hin)|].
  cbv zeta in Hinf.
  destruct (existsb (Box.satisfies p) (firstn limit (Box.box (p_vars p))))
    eqn:Hfound; [discriminate|].
  destruct (Nat.leb_spec (length (Box.box (p_vars p))) limit) as [Hle|Hgt];
    [|discriminate].
  rewrite firstn_all2 in Hfound by exact Hle.
  exact (box_existsb_false _ _ a Hfound Hin).
Qed.

Lemma box_solve_feasible_sound (limit : nat) (p : Box.BProblem) :
  is_feasible (Box.solve limit p) = true ->
  exists a, In a (Box.box (p_vars p)) /\ Box.satisfies p a = true.
Proof.
  unfold Box.solve. intros Hfeas.
  destruct (Box.presolve_infeasible p); [discriminate|].
  cbv zeta in Hfeas.
  destruct (existsb (Box.satisfies p) (firstn limit (Box.box (p_vars p))))
    eqn:Hfound.
  - apply existsb_exists in Hfound. destruct Hfound as (a & Hin & Hsat).
    exists a. split; [|exact Hsat].
    rewrite <- (firstn_skipn limit (Box.box (p_vars p))).
    apply in_or_app. now left.
  - destruct (Nat.leb (length (Box.box (p_vars p))) limit); discriminate.
Qed.

Lemma box_exact_decisive (p : Box.BProblem) :
  decisive (Box.exact p) = true.
Proof.
  unfold Box.exact, Box.solve.
  destruct (Box.presolve_infeasible p); [reflexivity|].
  cbv zeta.
  destruct (existsb _ _); [reflexivity|].
  rewrite Nat.leb_refl. reflexivity.
Qed.

End BoxSound.

(** * The filter at work on concrete models *)

(** ** Confirmed properties, instantiated *)

(** A feasible model, with no auxiliary model lent. *)
Lemma feasible_input_returns_empty_witness :
  is_feasible (status (solved Box.exact Box.easy)) = true
  /\ returned (Box.run Box.exact Box.easy None) = []
  /\ auxiliary (Box.run Box.exact Box.easy None) = None
  /\ original (Box.run Box.exact Box.easy None) = solved Box.exact Box.easy.
Proof.
  split; [vm_compute; reflexivity|].
  apply (@feasible_input_returns_empty _ _ _ Box.exact Box.easy None).
  vm_compute; reflexivity.
Defined.


(** There the candidate set is the first two rows; the first row alone is
    not reported infeasible. *)
Lemma candidate_prefixes_not_infeasible_witness :
  is_feasible (status (solved Box.exact Box.test01)) = false
  /\ found_trigger Box.exact Box.test01 None
  /\ is_infeasible
       (reported Box.exact (aux_built Box.exact Box.test01 None)
          (firstn 2 (exprs (solved Box.exact Box.test01))))
     = true
  /\ is_infeasible
       (reported Box.exact (aux_built Box.exact Box.test01 None)
          (firstn 1 (exprs (solved Box.exact Box.test01))))
     = false.
Proof.
  assert (Hnf : is_feasible (status (solved Box.exact Box.test01)) = false)
    by (vm_compute; reflexivity).
  assert (Hfound : found_trigger Box.exact Box.test01 None)
    by (unfold found_trigger; vm_compute; lia).
  pose proof (@candidate_prefixes_not_infeasible _ _ _ Box.exact
                Box.test01 None Hnf Hfound)
    as (_ & Hfull & Hpre & _).
  split; [exact Hnf|]. split; [exact Hfound|]. split; [exact Hfull|].
  apply (Hpre 1); vm_compute; lia.
Defined.

(** ** Amended properties, instantiated on the first test *)

Lemma deletion_phase_tests_the_trigger_witness :
  is_feasible (status (solved Box.exact Box.test01)) = false
  /\ exists aux2,
       auxiliary (Box.run Box.exact Box.test01 None) = Some aux2
       /\ returned (Box.run Box.exact Box.test01 None) = constrs aux2.
Proof.
  assert (Hnf : is_feasible (status (solved Box.exact Box.test01)) = false)
    by (vm_compute; reflexivity).
  split; [exact Hnf|].
  destruct (@deletion_phase_tests_the_trigger _ _ _ Box.exact
              Box.test01 None Hnf)
    as (aux2 & Haux & Hret & _).
  exists aux2. split; [exact Haux | exact Hret].
Defined.

Lemma retained_trigger_is_necessary_witness :
  is_feasible (status (solved Box.exact Box.test01)) = false
  /\ found_trigger Box.exact Box.test01 None
  /\ is_feasible
       (status
          (optimize Box.exact
             (remove (Box.aux_after Box.exact Box.test01 None)
                     [Box.last_returned Box.exact Box.test01 None])))
     = true.
Proof.
  assert (Hnf : is_feasible (status (solved Box.exact Box.test01)) = false)
    by (vm_compute; reflexivity).
  assert (Hfound : found_trigger Box.exact Box.test01 None)
    by (unfold found_trigger; vm_compute; lia).
  split; [exact Hnf|]. split; [exact Hfound|].
  apply (@retained_trigger_is_necessary _ _ _ Box.exact Box.test01 None
           Hnf Hfound
           (Box.aux_after Box.exact Box.test01 None)
           (Box.front_returned Box.exact Box.test01 None)
           (Box.last_returned Box.exact Box.test01 None));
    vm_compute; reflexivity.
Defined.

Lemma deletion_keeps_candidate_set_witness :
  is_feasible (status (solved Box.exact Box.test01)) = false
  /\ found_trigger Box.exact Box.test01 None
  /\ map (@expr Box.LinExpr) (returned (Box.run Box.exact Box.test01 None))
     = candidate_set Box.exact (aux_built Box.exact Box.test01 None)
         (exprs (solved Box.exact Box.test01)).
Proof.
  assert (Hnf : is_feasible (status (solved Box.exact Box.test01)) = false)
    by (vm_compute; reflexivity).
  assert (Hfound : found_trigger Box.exact Box.test01 None)
    by (unfold found_trigger; vm_compute; lia).
  split; [exact Hnf|]. split; [exact Hfound|].
  apply (@deletion_keeps_candidate_set _ _ _ Box.exact Box.test01 None
           Hnf Hfound).
  - vm_compute; reflexivity.
  - intros H. vm_compute in H. discriminate H.
Defined.

Lemma infeasibility_preserved_when_solver_agrees_witness :
  is_infeasible (status (solved Box.exact Box.test01)) = true
  /\ exists aux2,
       auxiliary (Box.run Box.exact Box.test01 None) = Some aux2
       /\ vars aux2 = vars (solved Box.exact Box.test01)
       /\ constrs aux2 = returned (Box.run Box.exact Box.test01 None)
       /\ is_infeasible (status (optimize Box.exact aux2)) = true.
Proof.
  split; [vm_compute; reflexivity|].
  apply (@infeasibility_preserved_when_solver_agrees _ _ _ Box.exact
           Box.test01 None).
  - vm_compute; reflexivity.
  - vm_compute; reflexivity.
  - intros _. vm_compute; reflexivity.
Defined.

Lemma auxiliary_model_mirrors_variables_witness :
  is_feasible (status (solved Box.exact Box.test01)) = false
  /\ vars (aux_built Box.exact Box.test01 (Some Box.scratch))
     = vars Box.test01
  /\ constrs (aux_built Box.exact Box.test01 (Some Box.scratch)) = [].
Proof.
  assert (Hnf : is_feasible (status (solved Box.exact Box.test01)) = false)
    by (vm_compute; reflexivity).
  split; [exact Hnf|].
  destruct (@auxiliary_model_mirrors_variables _ _ _ Box.exact Box.test01
              (Some Box.scratch) Hnf)
    as (Hv & Hv' & Hc & _).
  split; [now rewrite Hv, Hv' | exact Hc].
Defined.

(** ** Where the description and the code part ways *)

(** C1, as stated, fails: [sos_only] is solved IntegerInfeasible (its SOS
    set forbids the only point its rows allow), the additive phase never
    finds a trigger because the auxiliary model has no SOS set, both rows
    are returned, and the auxiliary model holding exactly them is Optimal:
    the point x = y = 1 satisfies it. *)
Lemma sos_hidden_infeasibility_is_lost :
  status Box.sos_only = LOADED
  /\ status (solved Box.exact Box.sos_only) = INT_INFEASIBLE
  /\ auxiliary (Box.run Box.exact Box.sos_only None)
     = Some (Box.aux_after Box.exact Box.sos_only None)
  /\ vars (Box.aux_after Box.exact Box.sos_only None)
     = vars (solved Box.exact Box.sos_only)
  /\ constrs (Box.aux_after Box.exact Box.sos_only None)
     = returned (Box.run Box.exact Box.sos_only None)
  /\ map (@expr Box.LinExpr) (returned (Box.run Box.exact Box.sos_only None))
     = exprs Box.sos_only
  /\ status (optimize Box.exact (Box.aux_after Box.exact Box.sos_only None))
     = OPTIMAL
  /\ Box.satisfies (problem_of (Box.aux_after Box.exact Box.sos_only None))
       Box.both_one
     = true.
Proof. vm_compute. repeat split. Qed.

(** C4, as stated, fails: on [crossed_bounds] the first row is the
    trigger, so the candidate set has one strict prefix, the empty one, and
    the auxiliary model without any row is not feasible: its box has no
    point. *)
Lemma empty_prefix_is_infeasible :
  found_trigger Box.exact Box.crossed_bounds None
  /\ snd (additive_run Box.exact Box.crossed_bounds None) = 0
  /\ is_feasible
       (reported Box.exact (aux_built Box.exact Box.crossed_bounds None)
          (firstn 0 (exprs (solved Box.exact Box.crossed_bounds))))
     = false
  /\ Box.box (vars (aux_built Box.exact Box.crossed_bounds None)) = [].
Proof.
  split; [unfold found_trigger; vm_compute; lia|].
  vm_compute. repeat split.
Qed.

(** C5, as stated, fails: on [wide] under the node limit the trigger is
    the second row; once it is removed the solve answers [OTHER], which is
    neither Infeasible nor IntegerInfeasible, and the trigger stays removed
    all the same.  What is returned is the first row alone, which the point
    x = y = 75 satisfies. *)
Lemma trigger_dropped_on_other_status :
  is_infeasible (status (solved Box.limited Box.wide)) = true
  /\ snd (additive_run Box.limited Box.wide None) = 1
  /\ status (Box.aux_after Box.limited Box.wide None) = OTHER
  /\ is_infeasible (status (Box.aux_after Box.limited Box.wide None)) = false
  /\ exprs (Box.aux_after Box.limited Box.wide None)
     = firstn 1 (exprs Box.wide)
  /\ history (Box.aux_after Box.limited Box.wide None)
     = history (fst (additive_run Box.limited Box.wide None))
       ++ [EvRemoveConstr (Box.ge1 1 "x" 101); EvOptimize]
  /\ Box.satisfies
       (problem_of (Box.aux_after Box.limited Box.wide None)) Box.midpoint
     = true.
Proof. vm_compute. repeat split. Qed.

(** C6, as stated, fails: on [crossed_bounds] a trigger is found, the
    deletion phase drops it, the returned collection is empty, and solving
    the auxiliary model with the trigger gone is Infeasible, not Feasible
    or Optimal. *)
Lemma dropped_trigger_leaves_infeasible_model :
  is_infeasible (status (solved Box.exact Box.crossed_bounds)) = true
  /\ found_trigger Box.exact Box.crossed_bounds None
  /\ returned (Box.run Box.exact Box.crossed_bounds None) = []
  /\ forall t,
       status
         (optimize Box.exact
            (remove (Box.aux_after Box.exact Box.crossed_bounds None) [t]))
       = INFEASIBLE.
Proof.
  split; [vm_compute; reflexivity|].
  split; [unfold found_trigger; vm_compute; lia|].
  split; [vm_compute; reflexivity|].
  intros t. vm_compute. reflexivity.
Qed.

(** C7, as stated, fails: lent the [scratch] model, the call leaves the
    auxiliary model with verbosity 1: it is never silenced on that
    branch. *)
Lemma lent_model_is_not_silenced :
  is_feasible (status (solved Box.exact Box.test01)) = false
  /\ auxiliary (Box.run Box.exact Box.test01 (Some Box.scratch))
     = Some (Box.aux_after Box.exact Box.test01 (Some Box.scratch))
  /\ verbose (aux_built Box.exact Box.test01 (Some Box.scratch)) = 1%Z
  /\ verbose (Box.aux_after Box.exact Box.test01 (Some Box.scratch)) = 1%Z
  /\ verbose (Box.aux_after Box.exact Box.test01 None) = 0%Z.
Proof. vm_compute. repeat split. Qed.

(** C10, as stated, fails: [exact] is a function of the formulation, the
    additive phase finds a trigger on [crossed_bounds], and yet the
    deletion phase discards it: the returned collection is empty while the
    candidate set has one member. *)
Lemma deletion_discards_first_trigger :
  found_trigger Box.exact Box.crossed_bounds None
  /\ candidate_set Box.exact (aux_built Box.exact Box.crossed_bounds None)
       (exprs (solved Box.exact Box.crossed_bounds))
     = exprs Box.crossed_bounds
  /\ exprs (fst (additive_run Box.exact Box.crossed_bounds None))
     = exprs Box.crossed_bounds
  /\ length (exprs Box.crossed_bounds) = 1
  /\ map (@expr Box.LinExpr)
         (returned (Box.run Box.exact Box.crossed_bounds None))
     = [].
Proof.
  split; [unfold found_trigger; vm_compute; lia|].
  vm_compute. repeat split.
Qed.

(** * Further properties of the filter *)

Section More.

Context {Num LinExpr Sos : Type}.
Variable solver : @Problem Num LinExpr Sos -> OptimizationStatus.

Lemma exprs_solved (mip_model : @Model Num LinExpr Sos) :
  exprs (solved solver mip_model) = exprs mip_model.
Proof.
  unfold solved, ensure_solved.
  destruct (is_loaded (status mip_model)); reflexivity.
Qed.

Lemma early_return (mip_model : @Model Num LinExpr Sos)
    (premade : option (@Model Num LinExpr Sos)) :
  is_feasible (status (solved solver mip_model)) = true ->
  get_iis_additive_deletion_method solver mip_model premade
  = mkOutcome (solved solver mip_model) premade [].
Proof.
  intros Hf. unfold get_iis_additive_deletion_method.
  change (ensure_solved solver mip_model) with (solved solver mip_model).
  now rewrite Hf.
Qed.

Lemma solves_app (h1 h2 : list (@Event Num LinExpr)) :
  solves (h1 ++ h2) = solves h1 + solves h2.
Proof. unfold solves. now rewrite filter_app, length_app. Qed.

Lemma solves_add_and_solve (es : list LinExpr) :
  solves (flat_map (@add_and_solve Num LinExpr) es) = length es.
Proof.
  induction es as [|e es IH]; [reflexivity|].
  cbn [flat_map]. rewrite solves_app, IH. reflexivity.
Qed.

Lemma solves_add_vars (vs : list (@Var Num)) :
  solves (map (@EvAddVar Num LinExpr) vs) = 0.
Proof. induction vs as [|v vs IH]; [reflexivity | exact IH]. Qed.

(** X1: whatever the solver answers, the returned expressions are an
    initial stretch of the original constraint sequence, in its order;
    past the early return that stretch holds everything before the
    position [i] where the additive loop stopped and at most one row
    more. *)
Theorem returned_is_initial_stretch
    (mip_model : @Model Num LinExpr Sos)
    (premade : option (@Model Num LinExpr Sos)) :
  exists n,
    map (@expr LinExpr)
        (returned (get_iis_additive_deletion_method solver mip_model premade))
    = firstn n (exprs mip_model)
    /\ (is_feasible (status (solved solver mip_model)) = true -> n = 0)
    /\ (is_feasible (status (solved solver mip_model)) = false ->
        snd (additive_run solver mip_model premade) <= n
        /\ n <= S (snd (additive_run solver mip_model premade))).
Proof.
  destruct (is_feasible (status (solved solver mip_model))) eqn:Hf.
  - exists 0.
    rewrite (early_return mip_model premade Hf). cbn [returned map].
    conjs; [reflexivity | reflexivity | discriminate].
  - destruct (run_spec solver mip_model premade Hf)
      as (aux1 & i & aux2 & Hrun & Hout & _ & _ & _ & Hi & Hex & _
          & _ & _ & Hsame & Htest).
    rewrite Hrun, Hout, exprs_solved in *. cbn [fst snd returned].
    fold (exprs aux2).
    destruct (Nat.eq_dec i (length (exprs mip_model))) as [Hall|Hsome].
    + exists (S i). rewrite (Hsame Hall), Hex.
      conjs; [reflexivity | discriminate | intros _; lia].
    + destruct (Htest ltac:(lia)) as (t & _ & _ & _ & Hex2 & _).
      destruct (is_feasible _) in Hex2.
      * exists (S i). rewrite Hex2.
        conjs; [reflexivity | discriminate | intros _; lia].
      * exists i. rewrite Hex2.
        conjs; [reflexivity | discriminate | intros _; lia].
Qed.

(** X2: past the early return the auxiliary model is solved once per
    constraint added and once more for the trigger: [i + 2] times when the
    additive loop stopped at position [i], as many times as there are
    constraints when it ran out; never more than one time more than the
    number of constraints.  Building the model solves nothing. *)
Theorem auxiliary_solves_counted
    (mip_model : @Model Num LinExpr Sos)
    (premade : option (@Model Num LinExpr Sos)) :
  is_feasible (status (solved solver mip_model)) = false ->
  let n := length (constrs mip_model) in
  let i := snd (additive_run solver mip_model premade) in
  exists aux2 calls,
    auxiliary (get_iis_additive_deletion_method solver mip_model premade)
    = Some aux2
    /\ history aux2
       = history (aux_built solver mip_model premade) ++ calls
    /\ solves calls = (if i <? n then i + 2 else n)
    /\ solves calls <= n + 1
    /\ solves (history (aux_built solver mip_model premade))
       = match premade with
         | Some lent => solves (history lent)
         | None => 0
         end.
Proof.
  intros Hnf.
  destruct (run_spec solver mip_model premade Hnf)
    as (aux1 & i & aux2 & Hrun & Hout & _ & _ & _ & Hi & Hex & Hh
        & _ & _ & Hsame & Htest).
  cbv zeta. rewrite Hrun, Hout. cbn [fst snd auxiliary].
  rewrite exprs_solved in *.
  assert (Hlen : length (exprs mip_model) = length (constrs mip_model))
    by (unfold exprs; apply length_map).
  rewrite <- Hlen.
  assert (Hbuilt :
    solves (history (aux_built solver mip_model premade))
    = match premade with
      | Some lent => solves (history lent)
      | None => 0
      end).
  { unfold aux_built, build_aux.
    match goal with |- context [copy_vars ?vs ?a] =>
      destruct (copy_vars_spec vs a) as (_ & _ & _ & _ & _ & _ & _ & _ & Hcv)
    end.
    rewrite Hcv, solves_app, solves_add_vars.
    destruct premade;
      cbn [history set_objective set_preprocess set_emphasis set_verbose
           clear new_model];
      rewrite ?solves_app; unfold solves at 2 3 4 5;
      cbn [filter is_optimize length app]; first [lia | reflexivity]. }
  destruct (Nat.ltb_spec i (length (exprs mip_model))) as [Hlt|Hge].
  - destruct (Htest Hlt) as (t & _ & _ & _ & _ & Hh2).
    exists aux2. eexists. conjs.
    + reflexivity.
    + rewrite Hh2, Hh, <- app_assoc. reflexivity.
    + rewrite !solves_app, solves_add_and_solve, length_firstn.
      match goal with |- context [if ?b then _ else _] => destruct b end;
        unfold solves; cbn [filter is_optimize length]; lia.
    + rewrite !solves_app, solves_add_and_solve, length_firstn.
      match goal with |- context [if ?b then _ else _] => destruct b end;
        unfold solves; cbn [filter is_optimize length]; lia.
    + exact Hbuilt.
  - assert (Hall : i = length (exprs mip_model)) by lia.
    exists aux2. eexists. conjs.
    + reflexivity.
    + rewrite (Hsame Hall), Hh. reflexivity.
    + rewrite solves_add_and_solve, length_firstn. lia.
    + rewrite solves_add_and_solve, length_firstn. lia.
    + exact Hbuilt.
Qed.

(** X3: a model without constraints gets the empty collection back, and
    when it is not Feasible or Optimal the auxiliary model is handed back as
    built: nothing was added to it and it was never solved. *)
Theorem no_constraints_nothing_returned
    (mip_model : @Model Num LinExpr Sos)
    (premade : option (@Model Num LinExpr Sos)) :
  constrs mip_model = [] ->
  returned (get_iis_additive_deletion_method solver mip_model premade) = []
  /\ (is_feasible (status (solved solver mip_model)) = false ->
      auxiliary (get_iis_additive_deletion_method solver mip_model premade)
      = Some (aux_built solver mip_model premade)).
Proof.
  intros Hnone.
  assert (Hsolved : constrs (solved solver mip_model) = []).
  { unfold solved, ensure_solved.
    destruct (is_loaded (status mip_model)); exact Hnone. }
  destruct (build_aux_spec (solved solver mip_model) premade)
    as (_ & Hc & _).
  unfold get_iis_additive_deletion_method.
  change (ensure_solved solver mip_model) with (solved solver mip_model).
  destruct (is_feasible (status (solved solver mip_model)));
    [split; [reflexivity | discriminate]|].
  rewrite Hsolved. cbn [additive skipn]. cbv zeta in Hc. rewrite Hc.
  cbn [deletion returned auxiliary]. split; [exact Hc | reflexivity].
Qed.

(** X4: when a trigger was found, the status the auxiliary model carries on
    return is the one of the solve made with the trigger removed.  If the
    trigger was dropped that status is what the solver says of the returned
    rows; if the trigger was put back the status reads Feasible or Optimal
    although the rows the model now holds are reported Infeasible or
    IntegerInfeasible: no solve follows the re-insertion. *)
Theorem status_left_on_auxiliary
    (mip_model : @Model Num LinExpr Sos)
    (premade : option (@Model Num LinExpr Sos)) :
  is_feasible (status (solved solver mip_model)) = false ->
  found_trigger solver mip_model premade ->
  exists aux2,
    auxiliary (get_iis_additive_deletion_method solver mip_model premade)
    = Some aux2
    /\ (is_feasible (status aux2) = false ->
        status (optimize solver aux2) = status aux2)
    /\ (is_feasible (status aux2) = true ->
        is_infeasible (status (optimize solver aux2)) = true).
Proof.
  intros Hnf Hfound. apply found_trigger_lt in Hfound.
  destruct (run_spec solver mip_model premade Hnf)
    as (aux1 & i & aux2 & Hrun & Hout & _ & Hfr2 & _ & Hi & _ & _
        & _ & Hat & _ & Htest).
  rewrite Hrun in Hfound. cbn [snd] in Hfound. rewrite Hout.
  cbn [auxiliary].
  destruct (Htest Hfound) as (t & _ & _ & Hst & Hex2 & _).
  exists aux2. rewrite status_optimize, (reported_frame solver _ Hfr2).
  rewrite <- Hst in Hex2.
  conjs; [reflexivity | |]; intros Hf; rewrite Hf in Hex2; rewrite Hex2.
  - now rewrite Hst.
  - exact (Hat Hfound).
Qed.

Lemma built_problem_same (mip_model : @Model Num LinExpr Sos)
    (lent lent' : option (@Model Num LinExpr Sos)) (es : list LinExpr) :
  reported solver (aux_built solver mip_model lent) es
  = reported solver (aux_built solver mip_model lent') es.
Proof.
  unfold reported, with_exprs, aux_built.
  destruct (build_aux_spec (solved solver mip_model) lent)
    as (Hv & _ & Hs & Ho & He & Hp & _).
  destruct (build_aux_spec (solved solver mip_model) lent')
    as (Hv' & _ & Hs' & Ho' & He' & Hp' & _).
  cbv zeta in *. now rewrite Hv, Hs, Ho, He, Hp, Hv', Hs', Ho', He', Hp'.
Qed.

Lemma stop_position_unique (P : nat -> bool) (n i i' : nat) :
  i <= n -> i' <= n ->
  (forall j, j < i -> P j = false) -> (i < n -> P i = true) ->
  (forall j, j < i' -> P j = false) -> (i' < n -> P i' = true) ->
  i = i'.
Proof.
  intros Hi Hi' Hb Ha Hb' Ha'.
  destruct (Nat.lt_trichotomy i i') as [Hlt|[Heq|Hgt]]; [|exact Heq|].
  - pose proof (Ha ltac:(lia)) as Ht. rewrite (Hb' i Hlt) in Ht.
    discriminate.
  - pose proof (Ha' ltac:(lia)) as Ht. rewrite (Hb i' Hgt) in Ht.
    discriminate.
Qed.

(** Under one solver, a function of the formulation alone, two calls
    that lend different models (neither of them the original) return the
    same expressions. *)
Lemma returned_exprs_same_for_any_lent
    (mip_model : @Model Num LinExpr Sos)
    (lent lent' : option (@Model Num LinExpr Sos)) :
  map (@expr LinExpr)
      (returned (get_iis_additive_deletion_method solver mip_model lent))
  = map (@expr LinExpr)
        (returned (get_iis_additive_deletion_method solver mip_model lent'))
  /\ original (get_iis_additive_deletion_method solver mip_model lent)
     = original (get_iis_additive_deletion_method solver mip_model lent').
Proof.
  destruct (is_feasible (status (solved solver mip_model))) eqn:Hf.
  - rewrite (early_return mip_model lent Hf),
            (early_return mip_model lent' Hf).
    split; reflexivity.
  - destruct (run_spec solver mip_model lent Hf)
      as (aux1 & i & aux2 & _ & Hout & _ & _ & _ & Hi & Hex & _
          & Hb & Ha & Hsame & Htest).
    destruct (run_spec solver mip_model lent' Hf)
      as (aux1' & i' & aux2' & _ & Hout' & _ & _ & _ & Hi' & Hex' & _
          & Hb' & Ha' & Hsame' & Htest').
    rewrite Hout, Hout'. cbn [returned original]. split; [|reflexivity].
    set (es := exprs (solved solver mip_model)) in *.
    assert (Heq : i = i').
    { apply (stop_position_unique
               (fun k => is_infeasible
                           (reported solver
                              (aux_built solver mip_model lent)
                              (firstn (S k) es)))
               (n := length es)); try assumption.
      - intros j Hj. rewrite (built_problem_same _ lent lent').
        now apply Hb'.
      - intros Hlt. rewrite (built_problem_same _ lent lent').
        now apply Ha'. }
    subst i'. fold (exprs aux2) (exprs aux2').
    destruct (Nat.eq_dec i (length es)) as [Hall|Hsome].
    + rewrite (Hsame Hall), (Hsame' Hall), Hex, Hex'. reflexivity.
    + destruct (Htest ltac:(lia)) as (t & _ & _ & _ & Hex2 & _).
      destruct (Htest' ltac:(lia)) as (t' & _ & _ & _ & Hex2' & _).
      rewrite (built_problem_same _ lent' lent) in Hex2'.
      now rewrite Hex2, Hex2'.
Qed.

(** X6: calling again on the model a first call left, lending the
    auxiliary model that call left, returns the same expressions and leaves
    the original model as it was, as long as the status found on the
    original model is not LOADED (so that it is not solved anew). *)
Theorem second_call_repeats_first
    (mip_model : @Model Num LinExpr Sos)
    (premade : option (@Model Num LinExpr Sos)) :
  is_loaded (status (solved solver mip_model)) = false ->
  let first := get_iis_additive_deletion_method solver mip_model premade in
  let second :=
    get_iis_additive_deletion_method solver (original first)
                                     (auxiliary first) in
  map (@expr LinExpr) (returned second) = map (@expr LinExpr) (returned first)
  /\ original second = original first.
Proof.
  intros Hnl. cbv zeta.
  assert (Horig :
    original (get_iis_additive_deletion_method solver mip_model premade)
    = solved solver mip_model).
  { unfold get_iis_additive_deletion_method, solved.
    destruct (is_feasible (status (ensure_solved solver mip_model)));
      [reflexivity|].
    destruct (additive solver _ _ 0). reflexivity. }
  rewrite Horig.
  assert (Hsame : forall lent,
    get_iis_additive_deletion_method solver (solved solver mip_model) lent
    = get_iis_additive_deletion_method solver mip_model lent).
  { intros lent. unfold get_iis_additive_deletion_method.
    change (ensure_solved solver mip_model) with (solved solver mip_model).
    unfold ensure_solved at 1 2 3 4 5. rewrite Hnl. reflexivity. }
  rewrite Hsame.
  destruct (returned_exprs_same_for_any_lent mip_model
              (auxiliary
                 (get_iis_additive_deletion_method solver mip_model premade))
              premade) as (Hr & Ho).
  rewrite Horig in Ho. split; assumption.
Qed.

(** X7: with a solver that settles every question put to the auxiliary
    model (it always answers Optimal, Feasible, Infeasible or
    IntegerInfeasible) and that calls the auxiliary model holding all
    original rows infeasible, the returned rows are reported infeasible,
    and either nothing is returned (the variables alone are infeasible) or
    the rows without the last one are reported Feasible or Optimal. *)
Theorem settling_solver_gives_tight_result
    (mip_model : @Model Num LinExpr Sos)
    (premade : option (@Model Num LinExpr Sos)) :
  is_feasible (status (solved solver mip_model)) = false ->
  let aux0 := aux_built solver mip_model premade in
  let rows :=
    map (@expr LinExpr)
        (returned (get_iis_additive_deletion_method solver mip_model premade))
  in
  (forall es, decisive (reported solver aux0 es) = true) ->
  is_infeasible (reported solver aux0 (exprs mip_model)) = true ->
  is_infeasible (reported solver aux0 rows) = true
  /\ (rows = []
      \/ is_feasible (reported solver aux0 (removelast rows)) = true).
Proof.
  intros Hnf. cbv zeta. intros Hdec Hwhole.
  destruct (run_spec solver mip_model premade Hnf)
    as (aux1 & i & aux2 & _ & Hout & _ & _ & _ & Hi & Hex & _
        & Hb & Ha & Hsame & Htest).
  rewrite Hout. cbn [returned]. fold (exprs aux2).
  rewrite exprs_solved in *.
  set (es := exprs mip_model) in *.
  set (aux0 := aux_built solver mip_model premade) in *.
  assert (Hsettle : forall l, is_feasible (reported solver aux0 l) = false ->
                              is_infeasible (reported solver aux0 l) = true).
  { intros l Hl. specialize (Hdec l). unfold decisive in Hdec.
    now rewrite Hl in Hdec. }
  destruct (Nat.eq_dec i (length es)) as [Hall|Hsome].
  - rewrite (Hsame Hall), Hex, firstn_all2 by lia.
    split; [exact Hwhole|].
    destruct i as [|i].
    + left. symmetry in Hall. apply length_zero_iff_nil in Hall. exact Hall.
    + exfalso. specialize (Hb i ltac:(lia)).
      rewrite firstn_all2 in Hb by lia. congruence.
  - assert (Hlt : i < length es) by lia.
    destruct (Htest Hlt) as (t & _ & Hsnoc & _ & Hex2 & _).
    destruct (is_feasible (reported solver aux0 (firstn i es))) eqn:Hfeas.
    + rewrite Hex2. split; [exact (Ha Hlt)|].
      right. rewrite Hsnoc, removelast_last. exact Hfeas.
    + pose proof (Hsettle _ Hfeas) as Hinf.
      rewrite Hex2. split; [exact Hinf|].
      destruct i as [|i]; [left; reflexivity|].
      exfalso. specialize (Hb i ltac:(lia)). congruence.
Qed.

End More.

(** * The test helper *)

Section HelperFacts.

Context {LinExpr : Type}.
Variable equals : LinExpr -> LinExpr -> bool.

Lemma some_equal_in_spec (x : LinExpr) (s2 : list LinExpr) :
  some_equal_in equals x s2 = true
  <-> exists y, In y s2 /\ equals x y = true.
Proof.
  induction s2 as [|y s2 IH]; cbn [some_equal_in].
  - split; [discriminate | intros (y & [] & _)].
  - destruct (equals x y) eqn:Hxy.
    + split; [|reflexivity]. intros _. exists y. split; [now left | exact Hxy].
    + rewrite IH. split.
      * intros (z & Hz & Hxz). exists z. split; [now right | exact Hxz].
      * intros (z & [<-|Hz] & Hxz); [congruence|]. now exists z.
Qed.

Lemma equal_to_some_spec (s1 : list LinExpr) (y : LinExpr) :
  equal_to_some equals s1 y = true
  <-> exists x, In x s1 /\ equals x y = true.
Proof.
  induction s1 as [|x s1 IH]; cbn [equal_to_some].
  - split; [discriminate | intros (x & [] & _)].
  - destruct (equals x y) eqn:Hxy.
    + split; [|reflexivity]. intros _. exists x. split; [now left | exact Hxy].
    + rewrite IH. split.
      * intros (z & Hz & Hzy). exists z. split; [now right | exact Hzy].
      * intros (z & [<-|Hz] & Hzy); [congruence|]. now exists z.
Qed.

Lemma each_of_first_passed (s1 s2 : list LinExpr) :
  each_of_first equals s1 s2 = Passed
  <-> forall x, In x s1 -> some_equal_in equals x s2 = true.
Proof.
  induction s1 as [|x s1 IH]; cbn [each_of_first].
  - split; [intros _ x [] | reflexivity].
  - destruct (some_equal_in equals x s2) eqn:Hx.
    + rewrite IH. split.
      * intros H z [<-|Hz]; [exact Hx | exact (H z Hz)].
      * intros H z Hz. apply H. now right.
    + split; [discriminate|]. intros H.
      specialize (H x (or_introl eq_refl)). congruence.
Qed.

Lemma each_of_second_passed (s2 s1 : list LinExpr) :
  each_of_second equals s2 s1 = Passed
  <-> forall y, In y s2 -> equal_to_some equals s1 y = true.
Proof.
  induction s2 as [|y s2 IH]; cbn [each_of_second].
  - split; [intros _ y [] | reflexivity].
  - destruct (equal_to_some equals s1 y) eqn:Hy.
    + rewrite IH. split.
      * intros H z [<-|Hz]; [exact Hy | exact (H z Hz)].
      * intros H z Hz. apply H. now right.
    + split; [discriminate|]. intros H.
      specialize (H y (or_introl eq_refl)). congruence.
Qed.

Lemma each_of_first_cases (s1 s2 : list LinExpr) :
  each_of_first equals s1 s2 = Passed
  \/ each_of_first equals s1 s2 = failureException msg.
Proof.
  induction s1 as [|x s1 IH]; cbn [each_of_first]; [now left|].
  destruct (some_equal_in equals x s2); [exact IH | now right].
Qed.

Lemma each_of_second_cases (s2 s1 : list LinExpr) :
  each_of_second equals s2 s1 = Passed
  \/ each_of_second equals s2 s1 = failureException msg.
Proof.
  induction s2 as [|y s2 IH]; cbn [each_of_second]; [now left|].
  destruct (equal_to_some equals s1 y); [exact IH | now right].
Qed.

Lemma assert_cases (s1 s2 : list LinExpr) :
  assertConstrExprSetEqual equals s1 s2 = Passed
  \/ assertConstrExprSetEqual equals s1 s2 = failureException msg.
Proof.
  unfold assertConstrExprSetEqual.
  destruct (each_of_first_cases s1 s2) as [-> | ->]; [|now right].
  apply each_of_second_cases.
Qed.

Lemma assert_passed (s1 s2 : list LinExpr) :
  assertConstrExprSetEqual equals s1 s2 = Passed
  <-> (forall x, In x s1 -> exists y, In y s2 /\ equals x y = true)
      /\ (forall y, In y s2 -> exists x, In x s1 /\ equals x y = true).
Proof.
  unfold assertConstrExprSetEqual.
  destruct (each_of_first equals s1 s2) eqn:Hfirst.
  - rewrite each_of_first_passed in Hfirst.
    rewrite each_of_second_passed. split.
    + intros Hsecond. split.
      * intros x Hx. apply some_equal_in_spec. exact (Hfirst x Hx).
      * intros y Hy. apply equal_to_some_spec. exact (Hsecond y Hy).
    + intros [_ Hsecond] y Hy. apply equal_to_some_spec. exact (Hsecond y Hy).
  - split; [discriminate|]. intros [Hall _].
    assert (Hp : each_of_first equals s1 s2 = Passed).
    { apply each_of_first_passed. intros x Hx.
      apply some_equal_in_spec. exact (Hall x Hx). }
    congruence.
Qed.

(** X8: the assertion returns exactly when every member of the first set
    has an [equals] partner in the second and every member of the second is
    the [equals] partner of a member of the first; in every other case it
    raises the failure exception with the one message of the source. *)
Theorem assert_passes_iff_sets_cover_each_other (s1 s2 : list LinExpr) :
  (assertConstrExprSetEqual equals s1 s2 = Passed
   <-> (forall x, In x s1 -> exists y, In y s2 /\ equals x y = true)
       /\ (forall y, In y s2 -> exists x, In x s1 /\ equals x y = true))
  /\ (assertConstrExprSetEqual equals s1 s2 <> Passed ->
      assertConstrExprSetEqual equals s1 s2
      = failureException "Sets of mip.LinExpr are not identical.").
Proof.
  split; [apply assert_passed|].
  intros Hnot. destruct (assert_cases s1 s2) as [H|H]; [contradiction|].
  exact H.
Qed.

(** X9: the outcome does not depend on the order in which the two sets
    are iterated nor on repeated members: lists with the same members give
    the same outcome. *)
Theorem assert_ignores_order_and_repeats (s1 s1' s2 s2' : list LinExpr) :
  (forall x, In x s1 <-> In x s1') ->
  (forall y, In y s2 <-> In y s2') ->
  assertConstrExprSetEqual equals s1 s2
  = assertConstrExprSetEqual equals s1' s2'.
Proof.
  intros H1 H2.
  assert (Hiff : assertConstrExprSetEqual equals s1 s2 = Passed
                 <-> assertConstrExprSetEqual equals s1' s2' = Passed).
  { rewrite !assert_passed. split; intros [Ha Hb]; split.
    - intros x Hx. destruct (Ha x (proj2 (H1 x) Hx)) as (y & Hy & Hxy).
      exists y. split; [exact (proj1 (H2 y) Hy) | exact Hxy].
    - intros y Hy. destruct (Hb y (proj2 (H2 y) Hy)) as (x & Hx & Hxy).
      exists x. split; [exact (proj1 (H1 x) Hx) | exact Hxy].
    - intros x Hx. destruct (Ha x (proj1 (H1 x) Hx)) as (y & Hy & Hxy).
      exists y. split; [exact (proj2 (H2 y) Hy) | exact Hxy].
    - intros y Hy. destruct (Hb y (proj1 (H2 y) Hy)) as (x & Hx & Hxy).
      exists x. split; [exact (proj2 (H1 x) Hx) | exact Hxy]. }
  destruct (assert_cases s1 s2) as [Hp|Hf];
    destruct (assert_cases s1' s2') as [Hp'|Hf']; try congruence.
  - apply Hiff in Hp. congruence.
  - apply Hiff in Hp'. congruence.
Qed.

(** X10: with an [equals] that does not care which operand comes first,
    the assertion does not care which set comes first. *)
Theorem assert_is_symmetric (s1 s2 : list LinExpr) :
  (forall a b, equals a b = equals b a) ->
  assertConstrExprSetEqual equals s1 s2
  = assertConstrExprSetEqual equals s2 s1.
Proof.
  intros Hsym.
  assert (Hiff : assertConstrExprSetEqual equals s1 s2 = Passed
                 <-> assertConstrExprSetEqual equals s2 s1 = Passed).
  { rewrite !assert_passed. split; intros [Ha Hb]; split.
    - intros y Hy. destruct (Hb y Hy) as (x & Hx & Hxy).
      exists x. split; [exact Hx | now rewrite Hsym].
    - intros x Hx. destruct (Ha x Hx) as (y & Hy & Hxy).
      exists y. split; [exact Hy | now rewrite Hsym].
    - intros x Hx. destruct (Hb x Hx) as (y & Hy & Hyx).
      exists y. split; [exact Hy | now rewrite Hsym].
    - intros y Hy. destruct (Ha y Hy) as (x & Hx & Hyx).
      exists x. split; [exact Hx | now rewrite Hsym]. }
  destruct (assert_cases s1 s2) as [Hp|Hf];
    destruct (assert_cases s2 s1) as [Hp'|Hf']; try congruence.
  - apply Hiff in Hp. congruence.
  - apply Hiff in Hp'. congruence.
Qed.

(** X13: with an [equals] that is reflexive and transitive the assertion
    passes on any set against itself, and a set that passes against a
    second which passes against a third passes against the third. *)
Theorem assert_is_reflexive_and_transitive (s1 s2 s3 : list LinExpr) :
  (forall a, equals a a = true) ->
  (forall a b c, equals a b = true -> equals b c = true ->
                 equals a c = true) ->
  assertConstrExprSetEqual equals s1 s1 = Passed
  /\ (assertConstrExprSetEqual equals s1 s2 = Passed ->
      assertConstrExprSetEqual equals s2 s3 = Passed ->
      assertConstrExprSetEqual equals s1 s3 = Passed).
Proof.
  intros Hrefl Htrans. split.
  - apply assert_passed.
    split; intros x Hx; exists x; (split; [exact Hx | apply Hrefl]).
  - rewrite !assert_passed. intros [Ha Hb] [Ha' Hb']. split.
    + intros x Hx. destruct (Ha x Hx) as (y & Hy & Hxy).
      destruct (Ha' y Hy) as (z & Hz & Hyz).
      exists z. split; [exact Hz | exact (Htrans x y z Hxy Hyz)].
    + intros z Hz. destruct (Hb' z Hz) as (y & Hy & Hyz).
      destruct (Hb y Hy) as (x & Hx & Hxy).
      exists x. split; [exact Hx | exact (Htrans x y z Hxy Hyz)].
Qed.

End HelperFacts.

(** * The test assertions on what the filter returns *)

Section TestsOnTheFilter.

Context {Num LinExpr Sos : Type}.
Variable solver : @Problem Num LinExpr Sos -> OptimizationStatus.
Variable equals : LinExpr -> LinExpr -> bool.

(** X11: with an [equals] that holds of every expression and itself, the
    set assertion of the tests passes on the returned expressions against
    the original sequence up to and including position [i] (the whole
    sequence when the additive loop ran out), provided the solve made with
    the trigger removed answered Feasible or Optimal. *)
Theorem assertion_passes_on_candidate_set
    (mip_model : @Model Num LinExpr Sos)
    (premade : option (@Model Num LinExpr Sos)) :
  is_feasible (status (solved solver mip_model)) = false ->
  (forall e, equals e e = true) ->
  let es := exprs mip_model in
  let i := snd (additive_run solver mip_model premade) in
  (i < length es ->
   is_feasible
     (reported solver (aux_built solver mip_model premade) (firstn i es))
   = true) ->
  assertConstrExprSetEqual equals
    (map (@expr LinExpr)
         (returned (get_iis_additive_deletion_method solver mip_model premade)))
    (firstn (S i) es)
  = Passed.
Proof.
  intros Hnf Hrefl. cbv zeta.
  destruct (run_spec solver mip_model premade Hnf)
    as (aux1 & i & aux2 & Hrun & Hout & _ & _ & _ & Hi & Hex & _
        & _ & _ & Hsame & Htest).
  rewrite Hrun, Hout. cbn [snd returned]. fold (exprs aux2).
  rewrite exprs_solved in *. intros Hkept.
  assert (Hrows : exprs aux2 = firstn (S i) (exprs mip_model)).
  { destruct (Nat.eq_dec i (length (exprs mip_model))) as [Hall|Hsome].
    - now rewrite (Hsame Hall).
    - destruct (Htest ltac:(lia)) as (t & _ & _ & _ & Hex2 & _).
      rewrite (Hkept ltac:(lia)) in Hex2. exact Hex2. }
  rewrite Hrows. apply assert_passed.
  split; intros x Hx; exists x; (split; [exact Hx | apply Hrefl]).
Qed.

(** X12: when instead the solve made with the trigger removed answered
    neither Feasible nor Optimal and no row before the trigger is [equals]
    to the trigger's, that same assertion raises: the expected trigger row
    has no partner among the returned rows. *)
Theorem assertion_raises_on_dropped_trigger
    (mip_model : @Model Num LinExpr Sos)
    (premade : option (@Model Num LinExpr Sos)) :
  is_feasible (status (solved solver mip_model)) = false ->
  let es := exprs mip_model in
  let i := snd (additive_run solver mip_model premade) in
  i < length es ->
  is_feasible
    (reported solver (aux_built solver mip_model premade) (firstn i es))
  = false ->
  (forall x y, In x (firstn i es) -> nth_error es i = Some y ->
               equals x y = false) ->
  assertConstrExprSetEqual equals
    (map (@expr LinExpr)
         (returned (get_iis_additive_deletion_method solver mip_model premade)))
    (firstn (S i) es)
  = failureException msg.
Proof.
  intros Hnf. cbv zeta.
  destruct (run_spec solver mip_model premade Hnf)
    as (aux1 & i & aux2 & Hrun & Hout & _ & _ & _ & Hi & Hex & _
        & _ & _ & _ & Htest).
  rewrite Hrun, Hout. cbn [snd returned]. fold (exprs aux2).
  rewrite exprs_solved in *. intros Hlt Hdrop Hdiff.
  destruct (Htest Hlt) as (t & _ & Hsnoc & _ & Hex2 & _).
  rewrite Hdrop in Hex2. rewrite Hex2.
  assert (Hnth : nth_error (exprs mip_model) i = Some (expr t)).
  { rewrite <- (firstn_skipn (S i) (exprs mip_model)), Hsnoc.
    rewrite <- app_assoc, nth_error_app2 by (rewrite length_firstn; lia).
    rewrite length_firstn.
    replace (i - Nat.min i (length (exprs mip_model))) with 0 by lia.
    reflexivity. }
  destruct (assert_cases equals (firstn i (exprs mip_model))
              (firstn (S i) (exprs mip_model))) as [Hp|Hf]; [|exact Hf].
  exfalso. apply assert_passed in Hp. destruct Hp as [_ Hcover].
  destruct (Hcover (expr t)) as (x & Hx & Hxt).
  - rewrite Hsnoc. apply in_or_app. right. now left.
  - rewrite (Hdiff x (expr t) Hx Hnth) in Hxt. discriminate.
Qed.

End TestsOnTheFilter.

(** * Further properties, instantiated *)

Lemma terms_eqb_refl (ts : list (Z * string)) :
  BoxTests.terms_eqb ts ts = true.
Proof.
  induction ts as [|[c x] ts IH]; [reflexivity|].
  cbn [BoxTests.terms_eqb]. now rewrite Z.eqb_refl, String.eqb_refl, IH.
Qed.

Lemma lin_equals_refl (e : Box.LinExpr) : BoxTests.lin_equals e e = true.
Proof.
  unfold BoxTests.lin_equals. rewrite terms_eqb_refl, Z.eqb_refl.
  destruct (Box.sense e); reflexivity.
Qed.

Lemma terms_eqb_sym (ts : list (Z * string)) :
  forall us, BoxTests.terms_eqb ts us = BoxTests.terms_eqb us ts.
Proof.
  induction ts as [|[c x] ts IH]; intros [|[d y] us]; try reflexivity.
  cbn [BoxTests.terms_eqb].
  now rewrite (Z.eqb_sym c d), (String.eqb_sym x y), (IH us).
Qed.

Lemma lin_equals_sym (e f : Box.LinExpr) :
  BoxTests.lin_equals e f = BoxTests.lin_equals f e.
Proof.
  unfold BoxTests.lin_equals.
  rewrite (terms_eqb_sym (Box.terms e) (Box.terms f)),
          (Z.eqb_sym (Box.const e) (Box.const f)).
  destruct (Box.sense e), (Box.sense f); reflexivity.
Qed.

(** On the first test the auxiliary model is solved three times. *)
Lemma auxiliary_solves_counted_witness :
  is_feasible (status (solved Box.exact Box.test01)) = false
  /\ exists aux2 calls,
       auxiliary (Box.run Box.exact Box.test01 None) = Some aux2
       /\ history aux2
          = history (aux_built Box.exact Box.test01 None) ++ calls
       /\ solves calls = 3.
Proof.
  assert (Hnf : is_feasible (status (solved Box.exact Box.test01)) = false)
    by (vm_compute; reflexivity).
  split; [exact Hnf|].
  destruct (@auxiliary_solves_counted _ _ _ Box.exact Box.test01 None Hnf)
    as (aux2 & calls & Haux & Hh & Hn & _).
  exists aux2, calls. split; [exact Haux|]. split; [exact Hh|].
  rewrite Hn. vm_compute. reflexivity.
Defined.

Lemma no_constraints_nothing_returned_witness :
  constrs BoxTests.rowless = []
  /\ returned (Box.run Box.exact BoxTests.rowless None) = []
  /\ is_feasible (status (solved Box.exact BoxTests.rowless)) = false.
Proof.
  split; [reflexivity|]. split; [|vm_compute; reflexivity].
  apply (@no_constraints_nothing_returned _ _ _ Box.exact BoxTests.rowless
           None eq_refl).
Defined.

Lemma status_left_on_auxiliary_witness :
  is_feasible (status (solved Box.exact Box.test01)) = false
  /\ found_trigger Box.exact Box.test01 None
  /\ exists aux2,
       auxiliary (Box.run Box.exact Box.test01 None) = Some aux2
       /\ (is_feasible (status aux2) = true ->
           is_infeasible (status (optimize Box.exact aux2)) = true).
Proof.
  assert (Hnf : is_feasible (status (solved Box.exact Box.test01)) = false)
    by (vm_compute; reflexivity).
  assert (Hfound : found_trigger Box.exact Box.test01 None)
    by (unfold found_trigger; vm_compute; lia).
  split; [exact Hnf|]. split; [exact Hfound|].
  destruct (@status_left_on_auxiliary _ _ _ Box.exact Box.test01 None
              Hnf Hfound) as (aux2 & Haux & _ & Hstale).
  exists aux2. split; [exact Haux | exact Hstale].
Defined.

Lemma second_call_repeats_first_witness :
  is_loaded (status (solved Box.exact Box.test01)) = false
  /\ map (@expr Box.LinExpr)
         (returned
            (Box.run Box.exact
               (original (Box.run Box.exact Box.test01 None))
               (auxiliary (Box.run Box.exact Box.test01 None))))
     = map (@expr Box.LinExpr) (returned (Box.run Box.exact Box.test01 None)).
Proof.
  split; [vm_compute; reflexivity|].
  apply (@second_call_repeats_first _ _ _ Box.exact Box.test01 None).
  vm_compute; reflexivity.
Defined.

Lemma settling_solver_gives_tight_result_witness :
  is_feasible (status (solved Box.exact Box.test01)) = false
  /\ is_infeasible
       (reported Box.exact (aux_built Box.exact Box.test01 None)
          (exprs Box.test01))
     = true
  /\ is_infeasible
       (reported Box.exact (aux_built Box.exact Box.test01 None)
          (map (@expr Box.LinExpr)
               (returned (Box.run Box.exact Box.test01 None))))
     = true.
Proof.
  assert (Hnf : is_feasible (status (solved Box.exact Box.test01)) = false)
    by (vm_compute; reflexivity).
  assert (Hwhole :
    is_infeasible
      (reported Box.exact (aux_built Box.exact Box.test01 None)
         (exprs Box.test01)) = true)
    by (vm_compute; reflexivity).
  split; [exact Hnf|]. split; [exact Hwhole|].
  apply (@settling_solver_gives_tight_result _ _ _ Box.exact Box.test01 None
           Hnf (fun es => box_exact_decisive _) Hwhole).
Defined.

Lemma assert_ignores_order_and_repeats_witness :
  (forall x, In x BoxTests.expected01 <-> In x BoxTests.shuffled01)
  /\ assertConstrExprSetEqual BoxTests.lin_equals
       BoxTests.expected01 BoxTests.expected01
     = assertConstrExprSetEqual BoxTests.lin_equals
         BoxTests.shuffled01 BoxTests.expected01.
Proof.
  assert (Hsame : forall x,
            In x BoxTests.expected01 <-> In x BoxTests.shuffled01)
    by (intros x; simpl; tauto).
  split; [exact Hsame|].
  apply (@assert_ignores_order_and_repeats _ BoxTests.lin_equals
           BoxTests.expected01 BoxTests.shuffled01
           BoxTests.expected01 BoxTests.expected01 Hsame).
  intros y. reflexivity.
Defined.

Lemma assert_is_symmetric_witness :
  (forall a b, BoxTests.lin_equals a b = BoxTests.lin_equals b a)
  /\ assertConstrExprSetEqual BoxTests.lin_equals
       BoxTests.expected01 (exprs Box.test01)
     = assertConstrExprSetEqual BoxTests.lin_equals
         (exprs Box.test01) BoxTests.expected01.
Proof.
  split; [exact lin_equals_sym|].
  apply (@assert_is_symmetric _ BoxTests.lin_equals
           BoxTests.expected01 (exprs Box.test01) lin_equals_sym).
Defined.

(** The first test: what comes back matches [c1] and [c2]. *)
Lemma assertion_passes_on_candidate_set_witness :
  is_feasible (status (solved Box.exact Box.test01)) = false
  /\ (forall e, BoxTests.lin_equals e e = true)
  /\ assertConstrExprSetEqual BoxTests.lin_equals
       (map (@expr Box.LinExpr) (returned (Box.run Box.exact Box.test01 None)))
       BoxTests.expected01
     = Passed.
Proof.
  assert (Hnf : is_feasible (status (solved Box.exact Box.test01)) = false)
    by (vm_compute; reflexivity).
  split; [exact Hnf|]. split; [exact lin_equals_refl|].
  pose proof (@assertion_passes_on_candidate_set _ _ _ Box.exact
                BoxTests.lin_equals Box.test01 None Hnf lin_equals_refl)
    as Hpass.
  cbv zeta in Hpass. apply Hpass. intros _. vm_compute. reflexivity.
Defined.

(** Under the node limit the trigger of [wide] is dropped and the
    assertion against both rows raises. *)
Lemma assertion_raises_on_dropped_trigger_witness :
  is_feasible (status (solved Box.limited Box.wide)) = false
  /\ assertConstrExprSetEqual BoxTests.lin_equals
       (map (@expr Box.LinExpr)
            (returned (Box.run Box.limited Box.wide None)))
       (exprs Box.wide)
     = failureException msg.
Proof.
  assert (Hnf : is_feasible (status (solved Box.limited Box.wide)) = false)
    by (vm_compute; reflexivity).
  split; [exact Hnf|].
  pose proof (@assertion_raises_on_dropped_trigger _ _ _ Box.limited
                BoxTests.lin_equals Box.wide None Hnf) as Hraise.
  cbv zeta in Hraise. apply Hraise.
  - vm_compute. lia.
  - vm_compute. reflexivity.
  - intros x y Hx Hy. vm_compute in Hx, Hy.
    destruct Hx as [<-|[]]. injection Hy as <-. reflexivity.
Defined.

Lemma terms_eqb_eq (ts : list (Z * string)) :
  forall us, BoxTests.terms_eqb ts us = true -> ts = us.
Proof.
  induction ts as [|[c x] ts IH]; intros [|[d y] us] H;
    try reflexivity; try discriminate.
  cbn [BoxTests.terms_eqb] in H.
  apply andb_true_iff in H. destruct H as [H Hrest].
  apply andb_true_iff in H. destruct H as [Hc Hx].
  apply Z.eqb_eq in Hc. apply String.eqb_eq in Hx.
  now rewrite Hc, Hx, (IH us Hrest).
Qed.

Lemma lin_equals_eq (e f : Box.LinExpr) :
  BoxTests.lin_equals e f = true -> e = f.
Proof.
  unfold BoxTests.lin_equals. intros H.
  apply andb_true_iff in H. destruct H as [H Hs].
  apply andb_true_iff in H. destruct H as [Ht Hc].
  apply terms_eqb_eq in Ht. apply Z.eqb_eq in Hc.
  destruct e as [te ce se], f as [tf cf sf]. cbn in *. subst.
  destruct se, sf; try discriminate; reflexivity.
Qed.

Lemma lin_equals_trans (a b c : Box.LinExpr) :
  BoxTests.lin_equals a b = true -> BoxTests.lin_equals b c = true ->
  BoxTests.lin_equals a c = true.
Proof.
  intros Hab Hbc. apply lin_equals_eq in Hab. subst b. exact Hbc.
Qed.

Lemma assert_is_reflexive_and_transitive_witness :
  (forall a, BoxTests.lin_equals a a = true)
  /\ assertConstrExprSetEqual BoxTests.lin_equals
       BoxTests.shuffled01 BoxTests.shuffled01 = Passed.
Proof.
  split; [exact lin_equals_refl|].
  exact (proj1 (@assert_is_reflexive_and_transitive _ BoxTests.lin_equals
                  BoxTests.shuffled01 BoxTests.expected01 BoxTests.expected01
                  lin_equals_refl lin_equals_trans)).
Defined.

(** X14: the returned collection need not be irreducible.  On [reordered]
    all three rows come back, although the two rows that follow the first
    are infeasible by themselves: no point of the box satisfies them. *)
Theorem returned_set_can_be_reducible :
  map (@expr Box.LinExpr)
      (returned (Box.run Box.exact BoxTests.reordered None))
  = exprs BoxTests.reordered
  /\ length (exprs BoxTests.reordered) = 3
  /\ is_infeasible
       (reported Box.exact (aux_built Box.exact BoxTests.reordered None)
          (tl (exprs BoxTests.reordered)))
     = true
  /\ forall a,
       In a (Box.box (vars BoxTests.reordered)) ->
       Box.satisfies
         (with_exprs (aux_built Box.exact BoxTests.reordered None)
            (tl (exprs BoxTests.reordered))) a
       = false.
Proof.
  split; [vm_compute; reflexivity|].
  split; [reflexivity|].
  assert (Hinf :
    is_infeasible
      (reported Box.exact (aux_built Box.exact BoxTests.reordered None)
         (tl (exprs BoxTests.reordered))) = true)
    by (vm_compute; reflexivity).
  split; [exact Hinf|].
  intros a Ha.
  apply (box_solve_infeasible_sound _ _ a Hinf). exact Ha.
Qed.

(** * Lending the original model itself *)

Section LendingFacts.

Context {Num LinExpr Sos : Type}.
Variable solver : @Problem Num LinExpr Sos -> OptimizationStatus.

(** Past the early return a model lent to itself ends cleared and
    configured, with nothing copied, added or solved, and nothing is
    returned. *)
Lemma lending_itself_spec (mip_model : @Model Num LinExpr Sos) :
  is_feasible (status (solved solver mip_model)) = false ->
  get_iis_lending_itself solver mip_model
  = let obj :=
      set_objective
        (set_preprocess
           (set_emphasis (clear (solved solver mip_model)) FEASIBILITY) 1)
        (ObjConst 0) in
    mkOutcome obj (Some obj) [].
Proof.
  intros Hnf. unfold get_iis_lending_itself.
  change (ensure_solved solver mip_model) with (solved solver mip_model).
  rewrite Hnf. reflexivity.
Qed.


(** C9, amended: when the original model, solved if it had to be, is
    Feasible or Optimal, the lent model comes back exactly as the caller
    held it on entry (not cleared, no setting written, nothing appended to
    its history), provided it is another model than the original, or the
    original needed no solve on entry. *)
Theorem lent_model_untouched_on_feasible
    (mip_model : @Model Num LinExpr Sos)
    (lending : @Lending Num LinExpr Sos) :
  is_feasible (status (solved solver mip_model)) = true ->
  (lending = Itself -> is_loaded (status mip_model) = false) ->
  auxiliary (invoke solver mip_model lending)
  = lent_on_entry mip_model lending.
Proof.
  intros Hf Hself. destruct lending as [|premade|];
    cbn [invoke lent_on_entry].
  - unfold get_iis_additive_deletion_method.
    change (ensure_solved solver mip_model) with (solved solver mip_model).
    now rewrite Hf.
  - exact (premade_untouched_on_feasible solver mip_model premade Hf).
  - specialize (Hself eq_refl).
    assert (Hsame : solved solver mip_model = mip_model)
      by (unfold solved, ensure_solved; now rewrite Hself).
    unfold get_iis_lending_itself.
    change (ensure_solved solver mip_model) with (solved solver mip_model).
    rewrite Hf, Hsame. reflexivity.
Qed.

End LendingFacts.


(** Another model lent, and a solved model lent to itself. *)
Lemma lent_model_untouched_on_feasible_witness :
  is_feasible (status (solved Box.exact Box.easy)) = true
  /\ auxiliary (invoke Box.exact Box.easy (Another Box.scratch))
     = Some Box.scratch
  /\ is_loaded (status (solved Box.exact Box.easy)) = false
  /\ auxiliary (invoke Box.exact (solved Box.exact Box.easy) BoxTests.itself)
     = Some (solved Box.exact Box.easy).
Proof.
  split; [vm_compute; reflexivity|].
  split.
  - apply (@lent_model_untouched_on_feasible _ _ _ Box.exact Box.easy
             (Another Box.scratch)).
    + vm_compute; reflexivity.
    + discriminate.
  - split; [vm_compute; reflexivity|].
    apply (@lent_model_untouched_on_feasible _ _ _ Box.exact
             (solved Box.exact Box.easy) BoxTests.itself).
    + vm_compute; reflexivity.
    + intros _. vm_compute; reflexivity.
Defined.


(** C9, as stated, fails: the feasible model [easy], not yet solved and
    lent to itself, is solved at line 65 before the return at line 70: the
    lent object comes back with a new status and one more event in its
    history. *)
Lemma lent_original_is_solved_before_return :
  status Box.easy = LOADED
  /\ is_feasible (status (solved Box.exact Box.easy)) = true
  /\ lent_on_entry Box.easy BoxTests.itself = Some Box.easy
  /\ auxiliary (invoke Box.exact Box.easy BoxTests.itself)
     = Some (optimize Box.exact Box.easy)
  /\ status (optimize Box.exact Box.easy) = OPTIMAL
  /\ history (optimize Box.exact Box.easy) = history Box.easy ++ [EvOptimize]
  /\ auxiliary (invoke Box.exact Box.easy BoxTests.itself)
     <> lent_on_entry Box.easy BoxTests.itself.
Proof.
  vm_compute. repeat split. intros H. discriminate H.
Qed.
